(** * docsheep: title extraction and rotation retry (quickstart.go)

    A shallow embedding of the title-extraction core of [quickstart.go]:
    the per-word closure of [ocrImage] (property string parsing and word
    weighting), the stable sort by weight, the title walk with its
    confidence samples, [avg], and the rotation loop of [main].

    Conventions.
    - A Go [string] is a byte sequence: Rocq's [string] (a list of
      [ascii] bytes).  [len] is [String.length]; [range] over a string
      decodes UTF-8 ([runes]).
    - A Go [int] is a 64-bit two's complement integer: a [Z] with the
      wrap-around written out ([wrap64]) wherever the code does
      arithmetic on it.
    - The [float64] returned by [avg] is kept as the exact rational
      quotient ([Q]); the rounding of the division is not modelled.
    - [unicode.IsLetter] and [unicode.IsDigit] are parameters
      ([UnicodeTables]); the examples use their Latin-1 part.
    - External tools (tesseract, convert, the file system, the goquery
      HTML parser) are oracles collected in a [World]; [log.Fatal] and an
      index-out-of-range panic both end the run ([Abort]). *)

From Stdlib Require Import ZArith QArith Ascii String List Lia Bool.
From Stdlib Require Import Sorting.Sorted Sorting.Permutation DecimalString.
From Stdlib Require DecimalPos.
From stdpp Require Import base option list strings gmap.

Local Open Scope Z_scope.

(** ** Go library functions used by the source *)

Module GoString.

Definition byte_code (c : ascii) : Z := Z.of_N (N_of_ascii c).

Definition byte_of (n : Z) : ascii := ascii_of_N (Z.to_N n).

(** [strings.IndexByte]-style cut at the first separator byte. *)
Fixpoint cut (s : string) (sep : ascii) : option (string * string) :=
  match s with
  | EmptyString => None
  | String c s' =>
      if Ascii.eqb c sep then Some (EmptyString, s')
      else match cut s' sep with
           | Some (a, b) => Some (String c a, b)
           | None => None
           end
  end.

(** [strings.Split(s, sep)] for a one-byte separator: every piece
    between separators, a single empty piece for the empty string. *)
Fixpoint Split (s : string) (sep : ascii) : list string :=
  match s with
  | EmptyString => [EmptyString]
  | String c s' =>
      if Ascii.eqb c sep then EmptyString :: Split s' sep
      else match Split s' sep with
           | h :: t => String c h :: t
           | [] => [String c EmptyString]
           end
  end.

(** [strings.SplitN(s, sep, n)] for a one-byte separator and [n >= 0]:
    at most [n] pieces, the last one being the unsplit remainder. *)
Fixpoint SplitN (s : string) (sep : ascii) (n : nat) : list string :=
  match n with
  | O => []
  | S O => [s]
  | S n' =>
      match cut s sep with
      | Some (a, b) => a :: SplitN b sep n'
      | None => [s]
      end
  end.

Fixpoint mem_byte (c : ascii) (cutset : string) : bool :=
  match cutset with
  | EmptyString => false
  | String d cs => Ascii.eqb c d || mem_byte c cs
  end.

(** [strings.TrimLeft(s, cutset)] for an ASCII cutset. *)
Fixpoint TrimLeft (s : string) (cutset : string) : string :=
  match s with
  | EmptyString => EmptyString
  | String c s' => if mem_byte c cutset then TrimLeft s' cutset else s
  end.

Definition len (s : string) : Z := Z.of_nat (String.length s).

Fixpoint repeat (s : string) (n : nat) : string :=
  match n with
  | O => EmptyString
  | S n' => s +:+ repeat s n'
  end.

End GoString.

(** 64-bit [int] arithmetic. *)
Module GoInt.

Definition MinInt : Z := - 2 ^ 63.
Definition MaxInt : Z := 2 ^ 63 - 1.

Definition in_range (z : Z) : Prop := MinInt <= z <= MaxInt.

Definition wrap64 (z : Z) : Z := (z + 2 ^ 63) mod 2 ^ 64 - 2 ^ 63.

Definition add (a b : Z) : Z := wrap64 (a + b).
Definition sub (a b : Z) : Z := wrap64 (a - b).
Definition mul (a b : Z) : Z := wrap64 (a * b).

End GoInt.

Module strconv.

Inductive NumError := ErrSyntax | ErrRange.

Definition digit_val (c : ascii) : option Z :=
  let n := GoString.byte_code c in
  if (48 <=? n) && (n <=? 57) then Some (n - 48) else None.

Fixpoint parse_digits (s : string) (acc : Z) : option Z :=
  match s with
  | EmptyString => Some acc
  | String c s' =>
      match digit_val c with
      | Some d => parse_digits s' (acc * 10 + d)
      | None => None
      end
  end.

(** [strconv.Atoi] on a 64-bit platform: an optional sign followed by
    one or more decimal digits.  A syntax error yields 0; a value out
    of range yields the nearest bound together with [ErrRange]. *)
Definition Atoi (s : string) : Z * option NumError :=
  match s with
  | EmptyString => (0, Some ErrSyntax)
  | String c s' =>
      let neg := Ascii.eqb c "-" in
      let body := if neg || Ascii.eqb c "+" then s' else s in
      match body with
      | EmptyString => (0, Some ErrSyntax)
      | _ =>
          match parse_digits body 0 with
          | None => (0, Some ErrSyntax)
          | Some n =>
              if neg then
                if 2 ^ 63 <? n then (GoInt.MinInt, Some ErrRange) else (- n, None)
              else
                if 2 ^ 63 <=? n then (GoInt.MaxInt, Some ErrRange) else (n, None)
          end
      end
  end.

(** [strconv.Itoa]: the decimal representation. *)
Definition Itoa (n : Z) : string := NilZero.string_of_int (Z.to_int n).

End strconv.

(** [unicode/utf8] decoding as performed by [range] over a string, and
    the [unicode] classification functions. *)
Module utf8.

Definition RuneError : Z := 65533.

Definition cont (c : ascii) (lo hi : Z) : option Z :=
  let n := GoString.byte_code c in
  if (lo <=? n) && (n <=? hi) then Some (n - 128) else None.

(** Bounds on the second byte of a multi-byte sequence, by first byte. *)
Definition second_bounds (b0 : Z) : Z * Z :=
  if b0 =? 224 then (160, 191)
  else if b0 =? 237 then (128, 159)
  else if b0 =? 240 then (144, 191)
  else if b0 =? 244 then (128, 143)
  else (128, 191).

(** The runes produced by [for _, r := range s]: well-formed sequences
    decode to their code point, any other byte to [RuneError] with
    width 1. *)
Fixpoint runes (s : string) : list Z :=
  match s with
  | EmptyString => []
  | String c0 s1 =>
      let b0 := GoString.byte_code c0 in
      let '(lo, hi) := second_bounds b0 in
      if b0 <? 128 then b0 :: runes s1
      else if (194 <=? b0) && (b0 <=? 223) then
        match s1 with
        | String c1 s2 =>
            match cont c1 lo hi with
            | Some x1 => ((b0 - 192) * 64 + x1) :: runes s2
            | None => RuneError :: runes s1
            end
        | _ => RuneError :: runes s1
        end
      else if (224 <=? b0) && (b0 <=? 239) then
        match s1 with
        | String c1 (String c2 s3) =>
            match cont c1 lo hi, cont c2 128 191 with
            | Some x1, Some x2 =>
                ((b0 - 224) * 4096 + x1 * 64 + x2) :: runes s3
            | _, _ => RuneError :: runes s1
            end
        | _ => RuneError :: runes s1
        end
      else if (240 <=? b0) && (b0 <=? 244) then
        match s1 with
        | String c1 (String c2 (String c3 s4)) =>
            match cont c1 lo hi, cont c2 128 191, cont c3 128 191 with
            | Some x1, Some x2, Some x3 =>
                ((b0 - 240) * 262144 + x1 * 4096 + x2 * 64 + x3) :: runes s4
            | _, _, _ => RuneError :: runes s1
            end
        | _ => RuneError :: runes s1
        end
      else RuneError :: runes s1
  end.

End utf8.

(** The tables behind [unicode.IsLetter] and [unicode.IsDigit] belong to
    the Go library; the development is parametric in them. *)
Class UnicodeTables := {
  IsLetter : Z -> bool;
  IsDigit : Z -> bool
}.

(** The Latin-1 part of the tables (code points up to U+00FF), where Go
    answers from its [properties] array: letters are A-Z, a-z, U+00AA,
    U+00B5, U+00BA, U+00C0-U+00D6, U+00D8-U+00F6 and U+00F8-U+00FF;
    decimal digits are 0-9.  Code points above U+00FF are left
    unclassified: the examples below only use Latin-1 text. *)
Definition latin1_IsLetter (r : Z) : bool :=
  ((65 <=? r) && (r <=? 90)) || ((97 <=? r) && (r <=? 122))
  || (r =? 170) || (r =? 181) || (r =? 186)
  || ((192 <=? r) && (r <=? 214)) || ((216 <=? r) && (r <=? 246))
  || ((248 <=? r) && (r <=? 255)).

Definition latin1_IsDigit (r : Z) : bool := (48 <=? r) && (r <=? 57).

Definition latin1 : UnicodeTables :=
  {| IsLetter := latin1_IsLetter; IsDigit := latin1_IsDigit |}.

(** [sort.Interface] restricted to what decides the order ([Less]);
    [Len] and [Swap] only serve the in-place algorithm. *)
Module sort.

Record Interface (A : Type) := { Less : A -> A -> bool }.
Arguments Less {A} _ _ _.

(** [sort.Reverse]: [Less(i, j)] of the wrapper is [Less(j, i)]. *)
Definition Reverse {A} (data : Interface A) : Interface A :=
  {| Less := fun i j => Less data j i |}.

(** Insert [x], which preceded every element of [l] in the input:
    it passes the elements strictly below it and stops in front of
    the first element that is not. *)
Fixpoint insert {A} (data : Interface A) (x : A) (l : list A) : list A :=
  match l with
  | [] => [x]
  | y :: l' => if Less data y x then y :: insert data x l' else x :: y :: l'
  end.

(** [sort.Stable]: ascending order as determined by [Less], elements
    that compare equal keep their original order.  The library sorts
    in place by insertion sort on blocks followed by merges; this is
    the insertion sort on the whole list. *)
Fixpoint Stable {A} (data : Interface A) (l : list A) : list A :=
  match l with
  | [] => []
  | x :: l' => insert data x (Stable data l')
  end.

End sort.

(** ** Outcome of a run *)

Inductive Fault :=
| TesseractFailed      (* tessCmd.Run() returned an error: log.Fatal *)
| HocrOpenFailed       (* os.Open(outputPrefix + ".hocr") failed: log.Fatal *)
| HocrParseFailed      (* goquery.NewDocumentFromReader failed: log.Fatal *)
| TitleCreateFailed    (* os.Create(outputPrefix + "-title.txt") failed: log.Fatal *)
| ConvertFailed        (* rotateCmd.Run() returned an error: log.Fatal *)
| IndexOutOfRange.     (* run-time panic on a slice index *)

Inductive result (A : Type) :=
| Done (a : A)
| Abort (f : Fault).
Arguments Done {A} a.
Arguments Abort {A} f.

#[export] Instance result_ret : MRet result := fun A a => Done a.
#[export] Instance result_bind : MBind result := fun A B k m =>
  match m with
  | Done a => k a
  | Abort f => Abort f
  end.

(** [s[i]] on a slice: panics when [i] is out of range. *)
Definition index {A} (s : list A) (i : nat) : result A :=
  match s !! i with
  | Some a => Done a
  | None => Abort IndexOutOfRange
  end.

(** ** Data model *)

Record Word := {
  text : string;
  fontSize : Z;
  confidence : Z;
  isStrong : bool;
  isEm : bool;
  height : Z;
  weight : Z;
  props : gmap string string
}.

Definition ByWeight : sort.Interface Word :=
  {| sort.Less := fun i j => weight i <? weight j |}.

(** What the closure passed to [Each] reads from a [goquery.Selection]:
    the [title] attribute (if any), the text content, and the number of
    [strong] and [em] descendants. *)
Record Selection := {
  attr_title : option string;
  Text : string;
  strong_size : nat;
  em_size : nat
}.

Definition AttrOr_title (s : Selection) (dflt : string) : string :=
  default dflt (attr_title s).

(** A parsed hOCR document as seen through
    [doc.Find("#page_1").Find(".ocrx_word")]: [None] when no element has
    the id [page_1], otherwise the word elements beneath it in document
    order. *)
Record Document := { page_1 : option (list Selection) }.

Definition Find_page_1_words (doc : Document) : list Selection :=
  default [] (page_1 doc).

Inductive HocrFile :=
| OpenError
| ParseError
| Parsed (doc : Document).

(** The external collaborators. *)
Record World := {
  tesseract_run : string -> string -> bool;  (* tiffFile, outputPrefix: err == nil *)
  hocr_read : string -> HocrFile;            (* path of the .hocr file *)
  create_file : string -> bool;              (* path: err == nil *)
  convert_run : string -> Z -> string -> bool (* tiffFile, angle, ocrInput: err == nil *)
}.

(** The provisional best of the rotation loop (the variables [title] and
    [outputPrefix] of [main]).  [evaluated] is not a variable of the
    source: it records, in order, the output prefix of every candidate
    handed to [ocrImage], which is what the line logged after each call
    makes observable. *)
Record Controller := {
  title : string;
  outputPrefix : string;
  evaluated : list string
}.

(** ** ocrImage *)

Definition bytes (l : list Z) : string :=
  fold_right (fun n s => String (GoString.byte_of n) s) EmptyString l.

(** The literal of line 156, byte for byte as it stands in the file. *)
Definition stoplist_literal : string :=
  "Mister Herr Frau 8052 8802 Artem Natalia Malyshev Malyshew Malysheva Weinbergstrasse 23 H"
  +:+ bytes [195; 131; 194; 182] +:+ "henring Schaffhauserstrasse 547".

Definition wordStoplist : gmap string bool :=
  fold_left (fun m word => <[word := true]> m)
            (GoString.Split stoplist_literal " ") ∅.

(** [m[k]] on a Go map: the zero value when the key is absent. *)
Definition map_get_string (m : gmap string string) (k : string) : string :=
  default EmptyString (m !! k).

Definition map_get_bool (m : gmap string bool) (k : string) : bool :=
  default false (m !! k).

(** Lines 160-164: the property map of one word element. *)
Definition add_prop (props : gmap string string) (prop : string)
  : result (gmap string string) :=
  let nameValue := GoString.SplitN (GoString.TrimLeft prop " ") " " 2 in
  name ← index nameValue 0;
  value ← index nameValue 1;
  Done (<[name := value]> props).

Fixpoint add_props (props : gmap string string) (l : list string)
  : result (gmap string string) :=
  match l with
  | [] => Done props
  | prop :: l' => props' ← add_prop props prop; add_props props' l'
  end.

Definition parse_props (s : Selection) : result (gmap string string) :=
  add_props ∅ (GoString.Split (AttrOr_title s EmptyString) ";").

(** Lines 170-182: the weight of a word. *)
Definition score (fontSize height : Z) (denied : bool) : Z :=
  let weight := GoInt.mul fontSize 10 in
  let weight := if 1400 <? height then GoInt.sub weight 50 else weight in
  let weight := if denied then GoInt.sub weight 100 else weight in
  weight.

(** Lines 159-184: the body of the closure, for one word element. *)
Definition parse_word (s : Selection) : result Word :=
  props ← parse_props s;
  let fontSize := fst (strconv.Atoi (map_get_string props "x_fsize")) in
  let confidence := fst (strconv.Atoi (map_get_string props "x_wconf")) in
  top ← index (GoString.Split (map_get_string props "bbox") " ") 1;
  let height := fst (strconv.Atoi top) in
  let isStrong := (0 <? strong_size s)%nat in
  let isEm := (0 <? em_size s)%nat in
  let weight := score fontSize height (map_get_bool wordStoplist (Text s)) in
  Done {| text := Text s; fontSize := fontSize; confidence := confidence;
          isStrong := isStrong; isEm := isEm; height := height;
          weight := weight; props := props |}.

(** [Each]: the closure runs on every selected element in order and
    appends to [words]; a panic in any of them ends the process. *)
Fixpoint parse_words (words : list Word) (l : list Selection) : result (list Word) :=
  match l with
  | [] => Done words
  | s :: l' => word ← parse_word s; parse_words (words ++ [word]) l'
  end.

(** Lines 123-132. *)
Definition avg (slice : list Z) : Q :=
  if (length slice =? 0)%nat then 0%Q
  else
    let sum := fold_left (fun sum conf => GoInt.add sum conf) slice 0 in
    (inject_Z sum / inject_Z (Z.of_nat (length slice)))%Q.

Section Title.

Context {U : UnicodeTables}.

(** Lines 197-203: one sample per letter or digit of the word.  The
    counter [letters] is bounded by the length of the text, which fits
    the int, so its increment never wraps. *)
Fixpoint count_letters (rs : list Z) (conf : Z) (letters : Z) (confidences : list Z)
  : Z * list Z :=
  match rs with
  | [] => (letters, confidences)
  | roone :: rs' =>
      if IsLetter roone || IsDigit roone
      then count_letters rs' conf (letters + 1) (confidences ++ [conf])
      else count_letters rs' conf letters confidences
  end.

(** Lines 194-210: the walk over the sorted words. *)
Fixpoint title_loop (words : list Word) (title : string) (confidences : list Z)
  : string * list Z :=
  match words with
  | [] => (title, confidences)
  | word :: rest =>
      let '(letters, confidences) :=
        count_letters (utf8.runes (text word)) (confidence word) 0 confidences in
      let title :=
        if (0 <? letters) && (70 <? confidence word)
        then title +:+ text word +:+ " "
        else title in
      if 80 <? GoString.len title then (title, confidences)
      else title_loop rest title confidences
  end.

(** Lines 134-214.  The dump of each word and of the title into the
    [-title.txt] file has no effect on the returned values and is left
    out. *)
Definition ocrImage (w : World) (tiffFile outputPrefix : string) : result (string * Q) :=
  if negb (tesseract_run w tiffFile outputPrefix) then Abort TesseractFailed
  else
    match hocr_read w (outputPrefix +:+ ".hocr") with
    | OpenError => Abort HocrOpenFailed
    | ParseError => Abort HocrParseFailed
    | Parsed doc =>
        words ← parse_words [] (Find_page_1_words doc);
        let words := sort.Stable (sort.Reverse ByWeight) words in
        if negb (create_file w (outputPrefix +:+ "-title.txt")) then Abort TitleCreateFailed
        else
          let '(title, confidences) := title_loop words EmptyString [] in
          Done (title, avg confidences)
    end.

(** ** The rotation loop of main (lines 292-325) *)

(** Line 293.  Lines 294-299 replace the list by a single requested
    angle when the title of the file carries a rotation directive; the
    loop below takes the list as an argument. *)
Definition rotations_default : list Z := [0; 180; 90; 270].

(** [confScore > 70]. *)
Definition goodEnough_of (confScore : Q) : bool := negb (Qle_bool confScore 70).

(** Lines 301-314: the OCR input and the output prefix of one angle;
    a non-zero angle first runs [convert]. *)
Definition prepare (w : World) (id tiffFile : string) (angle : Z) : result (string * string) :=
  if angle =? 0 then Done ("ocr-" +:+ id, tiffFile)
  else
    let ocrInput := tiffFile +:+ "-r" +:+ strconv.Itoa angle +:+ ".tiff" in
    let outputPrefixR := "ocr-" +:+ id +:+ "-r" +:+ strconv.Itoa angle in
    if convert_run w tiffFile angle ocrInput then Done (outputPrefixR, ocrInput)
    else Abort ConvertFailed.

(** Lines 315-321: the update of the provisional best. *)
Definition update (st : Controller) (outputPrefixR titleR : string) (confScore : Q)
  : Controller :=
  let goodEnough := goodEnough_of confScore in
  if goodEnough || (GoString.len (title st) =? 0)
  then {| title := titleR; outputPrefix := outputPrefixR;
          evaluated := evaluated st ++ [outputPrefixR] |}
  else {| title := title st; outputPrefix := outputPrefix st;
          evaluated := evaluated st ++ [outputPrefixR] |}.

Fixpoint rotation_loop (w : World) (id tiffFile : string) (rotations : list Z)
         (st : Controller) : result Controller :=
  match rotations with
  | [] => Done st
  | angle :: rest =>
      '(outputPrefixR, ocrInput) ← prepare w id tiffFile angle;
      '(titleR, confScore) ← ocrImage w ocrInput outputPrefixR;
      let st := update st outputPrefixR titleR confScore in
      if goodEnough_of confScore then Done st
      else rotation_loop w id tiffFile rest st
  end.

(** [var title, outputPrefix string]: both start empty. *)
Definition controller_init : Controller :=
  {| title := EmptyString; outputPrefix := EmptyString; evaluated := [] |}.

Definition run_rotations (w : World) (id tiffFile : string) (rotations : list Z)
  : result Controller :=
  rotation_loop w id tiffFile rotations controller_init.

End Title.

(** ** Notions used to state the properties *)

Section Notions.

Context {U : UnicodeTables}.

(** A letter or a digit. *)
Definition alnum (r : Z) : bool := IsLetter r || IsDigit r.

Definition alnum_count (s : string) : nat :=
  length (List.filter alnum (utf8.runes s)).

(** The gate of the title: some letter or digit, confidence above 70. *)
Definition qualifies (w : Word) : bool :=
  (0 <? alnum_count (text w))%nat && (70 <? confidence w).

(** The texts of the qualifying words, each followed by a space. *)
Fixpoint join (ws : list Word) : string :=
  match ws with
  | [] => EmptyString
  | w :: ws' => (if qualifies w then text w +:+ " " else EmptyString) +:+ join ws'
  end.

(** One confidence sample per letter or digit of each word. *)
Definition samples (ws : list Word) : list Z :=
  flat_map (fun w => List.repeat (confidence w) (alnum_count (text w))) ws.

(** The walk visits the first [k] words of [ws] and returns [res]:
    [k] is the first count at which the joined title exceeds 80 in the
    given [measure], or the number of words when that never happens. *)
Definition walk_spec (measure : string -> Z) (ws : list Word)
           (res : string * list Z) (k : nat) : Prop :=
  (k <= length ws)%nat
  /\ fst res = join (take k ws)
  /\ snd res = samples (take k ws)
  /\ (forall j, (j < k)%nat -> measure (join (take j ws)) <= 80)
  /\ (k = length ws \/ 80 < measure (join (take k ws))).

(** The candidate at [angle] runs through [prepare] and [ocrImage] and
    yields the output prefix [p], the title [t] and the confidence [c]. *)
Definition evaluates (w : World) (id tiffFile : string) (angle : Z)
           (p t : string) (c : Q) : Prop :=
  exists i, prepare w id tiffFile angle = Done (p, i)
            /\ ocrImage w i p = Done (t, c).

(** A candidate that completes without being good enough. *)
Definition low (w : World) (id tiffFile : string) (angle : Z) : Prop :=
  exists p t c, evaluates w id tiffFile angle p t c /\ (c <= 70)%Q.

(** A candidate that completes, not good enough, with an empty title. *)
Definition low_empty (w : World) (id tiffFile : string) (angle : Z) : Prop :=
  exists p c, evaluates w id tiffFile angle p EmptyString c /\ (c <= 70)%Q.

End Notions.

(** Length of a string in characters (runes) rather than bytes. *)
Definition rune_count (s : string) : Z := Z.of_nat (length (utf8.runes s)).



(** The output prefix of the candidate at [angle] (lines 303 and 307). *)
Definition candidate_prefix (id : string) (angle : Z) : string :=
  if angle =? 0 then "ocr-" +:+ id
  else "ocr-" +:+ id +:+ "-r" +:+ strconv.Itoa angle.

(** The fixed denylist, token by token. *)
Definition denylist : list string :=
  ["Mister"; "Herr"; "Frau"; "8052"; "8802"; "Artem"; "Natalia"; "Malyshev";
   "Malyshew"; "Malysheva"; "Weinbergstrasse"; "23";
   "H" +:+ bytes [195; 131; 194; 182] +:+ "henring";
   "Schaffhauserstrasse"; "547"].

Definition denied (t : string) : bool := bool_decide (t ∈ denylist).



(** Descending by weight. *)
Definition weight_ge (a b : Word) : Prop := weight b <= weight a.

(** A property with a value: after trimming, a space follows the name. *)
Definition has_value (prop : string) : bool :=
  match GoString.cut (GoString.TrimLeft prop " ") " " with
  | Some _ => true
  | None => false
  end.

Definition prop_name (prop : string) : string :=
  match GoString.cut (GoString.TrimLeft prop " ") " " with
  | Some (n, _) => n
  | None => GoString.TrimLeft prop " "
  end.

(** The properties of a word element and their names. *)
Definition prop_list (s : Selection) : list string :=
  GoString.Split (AttrOr_title s EmptyString) ";".




Definition no_space (s : string) : Prop :=
  GoString.cut s " " = None.


(** A world in which every tool succeeds and the hOCR files are given
    by [docs]. *)
Definition world_of (docs : string -> HocrFile) : World :=
  {| tesseract_run := fun _ _ => true;
     hocr_read := docs;
     create_file := fun _ => true;
     convert_run := fun _ _ _ => true |}.

Definition word_elem (title_attr txt : string) : Selection :=
  {| attr_title := Some title_attr; Text := txt; strong_size := 0; em_size := 0 |}.

(** A page with a single word of the given text and confidence. *)
Definition one_word_page (txt : string) (conf : Z) : HocrFile :=
  Parsed {| page_1 := Some [word_elem ("bbox 10 20 30 40; x_wconf "
                                        +:+ strconv.Itoa conf +:+ "; x_fsize 12") txt] |}.

(** ** Example inputs *)

(** A word of 41 times the letter U+00F6 (two bytes each), followed by
    the word "abc", both with confidence 95. *)
Definition word_of (txt : string) (conf : Z) : Word :=
  {| text := txt; fontSize := 12; confidence := conf; isStrong := false;
     isEm := false; height := 20; weight := 120; props := ∅ |}.

Definition umlaut_words : list Word :=
  [word_of (GoString.repeat (bytes [195; 182]) 41) 95; word_of "abc" 95].

(** Two word elements, and the page made of them. *)
Definition two_words (t1 : string) (c1 : Z) (t2 : string) (c2 : Z) : list Selection :=
  [word_elem ("bbox 10 20 30 40; x_wconf " +:+ strconv.Itoa c1 +:+ "; x_fsize 20") t1;
   word_elem ("bbox 50 20 70 40; x_wconf " +:+ strconv.Itoa c2 +:+ "; x_fsize 10") t2].

Definition two_word_page (t1 : string) (c1 : Z) (t2 : string) (c2 : Z) : HocrFile :=
  Parsed {| page_1 := Some (two_words t1 c1 t2 c2) |}.

(** The example of the specification: a four-letter word of confidence
    90 and a one-letter word of confidence 10. *)
Definition world_74 : World := world_of (fun _ => two_word_page "abcd" 90 "e" 10).



(** The hOCR files of a run, by path; any other path cannot be opened. *)
Fixpoint lookup_path (l : list (string * HocrFile)) (path : string) : HocrFile :=
  match l with
  | [] => OpenError
  | (p, h) :: l' => if String.eqb p path then h else lookup_path l' path
  end.

(** Confidences 40, 85, 95, 30 at the angles 0, 180, 90, 270. *)
Definition world_halt : World :=
  world_of (lookup_path
    [("ocr-doc.hocr", one_word_page "north" 40);
     ("ocr-doc-r180.hocr", one_word_page "south" 85);
     ("ocr-doc-r90.hocr", one_word_page "east" 95);
     ("ocr-doc-r270.hocr", one_word_page "west" 30)]).

(** Confidences 40, 55, 60, 30, each page with a one-letter title. *)
Definition world_first_kept : World :=
  world_of (lookup_path
    [("ocr-doc.hocr", two_word_page "a" 72 "bcdefghi" 36);
     ("ocr-doc-r180.hocr", two_word_page "b" 75 "cdef" 50);
     ("ocr-doc-r90.hocr", two_word_page "c" 80 "defg" 55);
     ("ocr-doc-r270.hocr", two_word_page "d" 90 "efghi" 18)]).

(** Confidences 40, 55, 60, 30 and no word above the gate: empty titles. *)
Definition world_all_empty : World :=
  world_of (lookup_path
    [("ocr-doc.hocr", one_word_page "north" 40);
     ("ocr-doc-r180.hocr", one_word_page "south" 55);
     ("ocr-doc-r90.hocr", one_word_page "east" 60);
     ("ocr-doc-r270.hocr", one_word_page "west" 30)]).

(** The markup of the first candidate does not parse; the others do. *)
Definition world_parse_error : World :=
  world_of (lookup_path
    [("ocr-doc.hocr", ParseError);
     ("ocr-doc-r180.hocr", one_word_page "south" 85);
     ("ocr-doc-r90.hocr", one_word_page "east" 95);
     ("ocr-doc-r270.hocr", one_word_page "west" 30)]).

(** The markup of the first candidate has no element with id page_1. *)
Definition world_no_scope : World :=
  world_of (lookup_path
    [("ocr-doc.hocr", Parsed {| page_1 := None |});
     ("ocr-doc-r180.hocr", one_word_page "south" 85);
     ("ocr-doc-r90.hocr", one_word_page "east" 95);
     ("ocr-doc-r270.hocr", one_word_page "west" 30)]).

(** Word elements for the parser examples. *)
Definition elem_usual : Selection :=
  word_elem "bbox 100 200 300 250; x_wconf 90; x_fsize 12" "Invoice".

Definition elem_tall_denied : Selection :=
  word_elem "bbox 100 1500 300 1550; x_wconf 90; x_fsize 12" "Herr".

Definition elem_no_bbox : Selection :=
  word_elem "x_wconf 90; x_fsize 12" "Invoice".


Definition elem_no_sizes : Selection :=
  word_elem "bbox 100 200 300 250; x_fsize large" "Invoice".

(** Every byte is below 128. *)
Fixpoint ascii_only (s : string) : bool :=
  match s with
  | EmptyString => true
  | String c s' => (GoString.byte_code c <? 128) && ascii_only s'
  end.

(** ** Further parts of the source *)

(** [s[i]] with an int index: a negative index panics as well. *)
Definition slice_at {A} (s : list A) (i : Z) : result A :=
  if (0 <=? i) && (i <? Z.of_nat (length s)) then index s (Z.to_nat i)
  else Abort IndexOutOfRange.

(** Lines 113-118: [ByWeight.Len] and [ByWeight.Swap].  The tuple
    assignment reads [s[j]] and [s[i]] and then stores them crosswise. *)
Definition ByWeight_Len (s : list Word) : Z := Z.of_nat (length s).

Definition ByWeight_Swap (s : list Word) (i j : Z) : result (list Word) :=
  sj ← slice_at s j;
  si ← slice_at s i;
  Done (<[Z.to_nat j := si]> (<[Z.to_nat i := sj]> s)).

(** A [sort.Interface] whose [Less] compares an integer key, as
    [ByWeight] and [ByFontSize] do. *)
Definition by_key {A} (key : A -> Z) : sort.Interface A :=
  {| sort.Less := fun i j => key i <? key j |}.

Definition key_ge {A} (key : A -> Z) (a b : A) : Prop := key b <= key a.

(** Lines 294-299 of quickstart.go: the pattern [_rotate([0-9]+)]
    searched in the title of the file.  The pattern is a literal followed
    by a greedy run of ASCII digits, so the leftmost match is found by
    trying each byte position in turn. *)
Module regexp.

Fixpoint strip_prefix (p s : string) : option string :=
  match p with
  | EmptyString => Some s
  | String a p' =>
      match s with
      | EmptyString => None
      | String b s' => if Ascii.eqb a b then strip_prefix p' s' else None
      end
  end.

Definition is_digit (c : ascii) : bool :=
  match strconv.digit_val c with
  | Some _ => true
  | None => false
  end.

(** The longest prefix of digits. *)
Fixpoint digits_prefix (s : string) : string :=
  match s with
  | EmptyString => EmptyString
  | String c s' => if is_digit c then String c (digits_prefix s') else EmptyString
  end.

(** A match of the pattern starting at the first byte: its group. *)
Definition match_here (s : string) : option string :=
  match strip_prefix "_rotate" s with
  | Some rest =>
      match digits_prefix rest with
      | EmptyString => None
      | ds => Some ds
      end
  | None => None
  end.

(** [re.FindStringSubmatch(s)]: nil when there is no match, otherwise
    the text of the leftmost match and of its group. *)
Fixpoint FindStringSubmatch (s : string) : list string :=
  match match_here s with
  | Some ds => ["_rotate" +:+ ds; ds]
  | None =>
      match s with
      | EmptyString => []
      | String _ s' => FindStringSubmatch s'
      end
  end.

End regexp.

(** Lines 293-299: the rotations tried for a file with the given title. *)
Definition rotations_of_title (title : string) : list Z :=
  let rotations := [0; 180; 90; 270] in
  let rotateMatch := regexp.FindStringSubmatch title in
  if (length rotateMatch =? 2)%nat then
    let requestedAngle := fst (strconv.Atoi (nth 1 rotateMatch EmptyString)) in
    [requestedAngle]
  else rotations.

Definition starts_with_digit (s : string) : bool :=
  match s with
  | EmptyString => false
  | String c _ => regexp.is_digit c
  end.

Section MoreNotions.

Context {U : UnicodeTables}.

(** Lines 293-325: the rotation loop on the rotations of the title. *)
Definition run_for_title (w : World) (id tiffFile title : string) : result Controller :=
  run_rotations w id tiffFile (rotations_of_title title).

(** The candidate at [angle] ends the process with the fault [f], in
    its rotation or in [ocrImage]. *)
Definition fails (w : World) (id tiffFile : string) (angle : Z) (f : Fault) : Prop :=
  prepare w id tiffFile angle = Abort f
  \/ exists p i, prepare w id tiffFile angle = Done (p, i) /\ ocrImage w i p = Abort f.

End MoreNotions.

(** The value of a property and the value a name ends up with after all
    properties of a list were stored in turn: that of its last
    occurrence. *)
Definition prop_value (prop : string) : string :=
  match GoString.cut (GoString.TrimLeft prop " ") " " with
  | Some (_, v) => v
  | None => EmptyString
  end.

Fixpoint last_value (k : string) (l : list string) : option string :=
  match l with
  | [] => None
  | prop :: l' =>
      match last_value k l' with
      | Some v => Some v
      | None => if decide (prop_name prop = k) then Some (prop_value prop) else None
      end
  end.

(** A property string in the hOCR layout: [name value] pairs separated
    by a semicolon and a space. *)
Definition render_prop (kv : string * string) : string := fst kv +:+ " " +:+ snd kv.

Fixpoint render_props (kvs : list (string * string)) : string :=
  match kvs with
  | [] => EmptyString
  | kv :: rest =>
      match rest with
      | [] => render_prop kv
      | _ => render_prop kv +:+ "; " +:+ render_props rest
      end
  end.

Definition no_byte (c : ascii) (s : string) : Prop := GoString.cut s c = None.

(** A property name: not empty, without space or semicolon; a value:
    without semicolon. *)
Definition well_formed_prop (kv : string * string) : Prop :=
  fst kv <> EmptyString /\ no_byte " " (fst kv) /\ no_byte ";" (fst kv)
  /\ no_byte ";" (snd kv).

Definition props_of (kvs : list (string * string)) : gmap string string :=
  fold_left (fun m kv => <[fst kv := snd kv]> m) kvs ∅.

(** main.go: the words read from the tesseract iterator, sorted and
    printed.  The float32 confidence is kept as a rational. *)
Module TessMain.

(** Line 20. *)
Definition B (cb : Z) : bool := negb (cb =? 0).

Record TessWord := {
  text : string;
  confidence : Q;
  is_bold : bool;
  is_italic : bool;
  is_underlined : bool;
  is_monospace : bool;
  is_serif : bool;
  is_smallcaps : bool;
  pointsize : Z;
  font_id : Z;
  font_name : string
}.

Definition ByFontSize : sort.Interface TessWord :=
  {| sort.Less := fun i j => pointsize i <? pointsize j |}.

(** Line 130: [word.confidence > 75 && len(word.text) >= 3]. *)
Definition printed (word : TessWord) : bool :=
  negb (Qle_bool (confidence word) 75) && (3 <=? GoString.len (text word)).

(** Lines 128-133: the words printed, in the order of printing. *)
Definition main_output (words : list TessWord) : list TessWord :=
  List.filter printed (sort.Stable (sort.Reverse ByFontSize) words).

End TessMain.

(** A word element that states its confidence twice. *)
Definition elem_duplicate : Selection :=
  word_elem "bbox 100 200 300 250; x_wconf 10; x_wconf 90" "Invoice".

(** The rotation to 90 degrees fails; every other tool succeeds. *)
Definition world_convert_fails : World :=
  {| tesseract_run := fun _ _ => true;
     hocr_read := lookup_path
       [("ocr-doc.hocr", one_word_page "north" 40);
        ("ocr-doc-r180.hocr", one_word_page "south" 55);
        ("ocr-doc-r90.hocr", one_word_page "east" 95);
        ("ocr-doc-r270.hocr", one_word_page "west" 30)];
     create_file := fun _ => true;
     convert_run := fun _ angle _ => negb (angle =? 90) |}.

(** Words of the main.go examples. *)
Definition tess_word (txt : string) (conf : Q) (size : Z) : TessMain.TessWord :=
  {| TessMain.text := txt; TessMain.confidence := conf;
     TessMain.is_bold := false; TessMain.is_italic := false;
     TessMain.is_underlined := false; TessMain.is_monospace := false;
     TessMain.is_serif := false; TessMain.is_smallcaps := false;
     TessMain.pointsize := size; TessMain.font_id := 0;
     TessMain.font_name := EmptyString |}.

(** * Properties *)

(** ** Strings and machine integers *)

Section StringFacts.

Lemma app_cons (c : ascii) (a b : string) :
  String c a +:+ b = String c (a +:+ b).
Proof. reflexivity. Qed.

Lemma app_nil_l (b : string) : EmptyString +:+ b = b.
Proof. reflexivity. Qed.

Lemma app_empty_r (s : string) : s +:+ EmptyString = s.
Proof.
  induction s as [|c s IH]; [reflexivity |].
  rewrite app_cons. now rewrite IH.
Qed.

Lemma app_assoc_s (a b c : string) : (a +:+ b) +:+ c = a +:+ (b +:+ c).
Proof.
  induction a as [|x a IH]; [reflexivity |].
  rewrite !app_cons. now rewrite IH.
Qed.

Lemma len_app (a b : string) :
  GoString.len (a +:+ b) = GoString.len a + GoString.len b.
Proof.
  unfold GoString.len. induction a as [|x a IH].
  - rewrite app_nil_l. simpl. lia.
  - rewrite app_cons. simpl String.length. lia.
Qed.

Lemma len_nonneg (a : string) : 0 <= GoString.len a.
Proof. unfold GoString.len. lia. Qed.

Lemma len_zero_iff (a : string) : (GoString.len a =? 0) = true <-> a = EmptyString.
Proof.
  unfold GoString.len. destruct a; simpl String.length.
  - split; reflexivity.
  - split; [intros H; apply Z.eqb_eq in H; lia | discriminate].
Qed.

End StringFacts.

Section IntFacts.

Import GoInt.






End IntFacts.

(** ** The stable sort by weight *)

Section SortFacts.

Lemma less_desc (a b : Word) :
  sort.Less (sort.Reverse ByWeight) a b = (weight b <? weight a).
Proof. reflexivity. Qed.

Lemma insert_perm (x : Word) (l : list Word) :
  Permutation (sort.insert (sort.Reverse ByWeight) x l) (x :: l).
Proof.
  induction l as [|y l IH]; simpl; [reflexivity |].
  destruct (weight x <? weight y).
  - rewrite IH. apply perm_swap.
  - reflexivity.
Qed.

Lemma Stable_perm (l : list Word) :
  Permutation (sort.Stable (sort.Reverse ByWeight) l) l.
Proof.
  induction l as [|x l IH]; simpl; [reflexivity |].
  rewrite insert_perm. now constructor.
Qed.

Lemma insert_sorted (x : Word) (l : list Word) :
  StronglySorted weight_ge l ->
  StronglySorted weight_ge (sort.insert (sort.Reverse ByWeight) x l).
Proof.
  induction 1 as [|y l Hs IH Hy]; simpl.
  - repeat constructor.
  - destruct (weight x <? weight y) eqn:E.
    + apply Z.ltb_lt in E. constructor; [exact IH |].
      eapply Permutation_Forall; [symmetry; apply insert_perm |].
      constructor; [unfold weight_ge; lia | exact Hy].
    + apply Z.ltb_ge in E. constructor; [constructor; assumption |].
      constructor; [exact E |].
      eapply Forall_impl; [exact Hy |].
      unfold weight_ge. intros z Hz. simpl in Hz. lia.
Qed.

Lemma Stable_sorted (l : list Word) :
  StronglySorted weight_ge (sort.Stable (sort.Reverse ByWeight) l).
Proof.
  induction l as [|x l IH]; simpl; [constructor | now apply insert_sorted].
Qed.

Lemma insert_filter (z : Z) (x : Word) (l : list Word) :
  List.filter (fun a => weight a =? z) (sort.insert (sort.Reverse ByWeight) x l)
  = List.filter (fun a => weight a =? z) (x :: l).
Proof.
  induction l as [|y l IH]; [reflexivity |].
  simpl sort.insert. destruct (weight x <? weight y) eqn:E; [| reflexivity].
  apply Z.ltb_lt in E.
  change (List.filter (fun a => weight a =? z) (y :: sort.insert (sort.Reverse ByWeight) x l))
    with (if weight y =? z
          then y :: List.filter (fun a => weight a =? z) (sort.insert (sort.Reverse ByWeight) x l)
          else List.filter (fun a => weight a =? z) (sort.insert (sort.Reverse ByWeight) x l)).
  rewrite IH. simpl.
  destruct (weight x =? z) eqn:Ex, (weight y =? z) eqn:Ey; try reflexivity.
  apply Z.eqb_eq in Ex, Ey. lia.
Qed.

Lemma Stable_filter (z : Z) (l : list Word) :
  List.filter (fun a => weight a =? z) (sort.Stable (sort.Reverse ByWeight) l)
  = List.filter (fun a => weight a =? z) l.
Proof.
  induction l as [|x l IH]; [reflexivity |].
  simpl sort.Stable. rewrite insert_filter. simpl. now rewrite IH.
Qed.

End SortFacts.

(** C6. [sort.Stable(sort.Reverse(ByWeight(words)))] rearranges the words
    in descending order of weight, and it is stable: for every weight,
    the words of that weight appear in the output in the same relative
    order as in the input (the document order of the parser). *)
Theorem C6_sort_descending_stable (words : list Word) :
  let sorted := sort.Stable (sort.Reverse ByWeight) words in
  Permutation sorted words
  /\ StronglySorted weight_ge sorted
  /\ forall z, List.filter (fun a => weight a =? z) sorted
               = List.filter (fun a => weight a =? z) words.
Proof.
  cbv zeta. split; [apply Stable_perm |].
  split; [apply Stable_sorted |].
  intros z. apply Stable_filter.
Qed.

(** ** The title walk *)

Section WalkFacts.

Context {U : UnicodeTables}.

Lemma count_letters_spec (rs : list Z) (conf letters : Z) (cs : list Z) :
  count_letters rs conf letters cs
  = (letters + Z.of_nat (length (List.filter alnum rs)),
     cs ++ List.repeat conf (length (List.filter alnum rs))).
Proof.
  revert letters cs. induction rs as [|r rs IH]; intros letters cs; simpl.
  - rewrite Z.add_0_r, app_nil_r. reflexivity.
  - change (IsLetter r || IsDigit r) with (alnum r).
    destruct (alnum r); simpl.
    + rewrite IH. rewrite <- app_assoc. simpl. f_equal. lia.
    + apply IH.
Qed.

Lemma title_loop_step (word : Word) (rest : list Word) (t0 : string) (cs0 : list Z) :
  title_loop (word :: rest) t0 cs0
  = let t1 := t0 +:+ (if qualifies word then text word +:+ " " else EmptyString) in
    let cs1 := cs0 ++ samples [word] in
    if 80 <? GoString.len t1 then (t1, cs1) else title_loop rest t1 cs1.
Proof.
  simpl title_loop. rewrite count_letters_spec. cbv zeta.
  unfold samples. simpl flat_map. rewrite app_nil_r.
  unfold qualifies, alnum_count.
  replace (0 <? 0 + Z.of_nat (length (List.filter alnum (utf8.runes (text word)))))
    with (0 <? length (List.filter alnum (utf8.runes (text word))))%nat.
  - destruct ((0 <? length (List.filter alnum (utf8.runes (text word))))%nat
              && (70 <? confidence word)); [reflexivity |].
    rewrite app_empty_r. reflexivity.
  - destruct (length (List.filter alnum (utf8.runes (text word)))); reflexivity.
Qed.

Lemma samples_cons (w : Word) (ws : list Word) :
  samples (w :: ws) = samples [w] ++ samples ws.
Proof. unfold samples. simpl. now rewrite app_nil_r. Qed.

(** The walk started from a title [t0] and samples [cs0]. *)
Lemma title_loop_walk (words : list Word) :
  forall (t0 : string) (cs0 : list Z),
  exists k,
    (k <= length words)%nat
    /\ fst (title_loop words t0 cs0) = t0 +:+ join (take k words)
    /\ snd (title_loop words t0 cs0) = cs0 ++ samples (take k words)
    /\ (forall j, (0 < j < k)%nat -> GoString.len (t0 +:+ join (take j words)) <= 80)
    /\ (k = length words \/ 80 < GoString.len (t0 +:+ join (take k words))).
Proof.
  induction words as [|word rest IH]; intros t0 cs0.
  - exists 0%nat. simpl. rewrite app_empty_r, app_nil_r.
    repeat split; try reflexivity; lia.
  - rewrite title_loop_step. cbv zeta.
    set (t1 := t0 +:+ (if qualifies word then text word +:+ " " else EmptyString)).
    destruct (80 <? GoString.len t1) eqn:E.
    + exists 1%nat. simpl take. simpl join. rewrite app_empty_r. fold t1.
      simpl fst. simpl snd.
      apply Z.ltb_lt in E.
      repeat split; try reflexivity; simpl; lia.
    + apply Z.ltb_ge in E.
      destruct (IH t1 (cs0 ++ samples [word])) as (k & Hk & Ht & Hc & Hj & Hend).
      exists (S k). simpl take. simpl join.
      rewrite <- !app_assoc_s. fold t1.
      split; [simpl; lia |]. split; [exact Ht |].
      split; [rewrite Hc, (samples_cons word (take k rest)), app_assoc; reflexivity |].
      split.
      * intros [|j] Hlt; [lia |]. simpl take. simpl join.
        rewrite <- app_assoc_s. fold t1.
        destruct j as [|j].
        -- simpl. rewrite app_empty_r. exact E.
        -- apply Hj. lia.
      * destruct Hend as [-> | Hend]; [now left | now right].
Qed.

End WalkFacts.

(** The walk of [ocrImage], which starts from the empty title. *)
Lemma walk_from_empty `{U : UnicodeTables} (words : list Word) :
  exists k, walk_spec GoString.len words (title_loop words EmptyString []) k.
Proof.
  destruct (title_loop_walk words EmptyString []) as (k & Hk & Ht & Hc & Hj & Hend).
  exists k. unfold walk_spec. rewrite app_nil_l in Ht, Hend. simpl in Hc.
  repeat split; try assumption.
  intros [|j] Hlt.
  - simpl. unfold GoString.len. simpl. lia.
  - specialize (Hj (S j)). rewrite app_nil_l in Hj. apply Hj. lia.
Qed.

(** C4, as amended.  For every word sequence the walk of the Title
    Synthesizer visits a prefix of the words: the title is the
    concatenation, in order, of the text plus a trailing space of exactly
    those visited words that contain a letter or digit and have confidence
    above 70; no visited prefix short of the last has a title longer than
    80 bytes; and either every word is visited or the title, with the last
    visited word included in full, is longer than 80 bytes.  The length
    is the byte length of the UTF-8 string. *)
Theorem C4_title_walk_bytes `{U : UnicodeTables} (words : list Word) :
  exists k, walk_spec GoString.len words (title_loop words EmptyString []) k.
Proof. exact (walk_from_empty words). Qed.

(** C4, as stated, fails when the length is counted in characters: after
    the first word the title has 42 characters (83 bytes), the walk
    stops, and "abc" is left out although it passes the gate and the
    title is no longer than 80 characters. *)
Lemma C4_counterexample_characters :
  rune_count (fst (@title_loop latin1 umlaut_words EmptyString [])) = 42
  /\ ~ exists k, @walk_spec latin1 rune_count umlaut_words
                   (@title_loop latin1 umlaut_words EmptyString []) k.
Proof.
  split; [vm_compute; reflexivity |].
  intros (k & Hk & Ht & _ & _ & Hend).
  destruct k as [|[|[|k]]].
  - vm_compute in Ht. discriminate Ht.
  - destruct Hend as [Hend | Hend]; [discriminate Hend |].
    vm_compute in Hend. discriminate Hend.
  - vm_compute in Ht. discriminate Ht.
  - simpl in Hk. lia.
Qed.

(** ** avg and the confidence of a candidate *)







(** What a completed [ocrImage] went through. *)
Lemma ocrImage_Done `{U : UnicodeTables} (w : World) (tiffFile outputPrefix t : string) (c : Q) :
  ocrImage w tiffFile outputPrefix = Done (t, c) ->
  exists doc parsed,
    hocr_read w (outputPrefix +:+ ".hocr") = Parsed doc
    /\ parse_words [] (Find_page_1_words doc) = Done parsed
    /\ t = fst (title_loop (sort.Stable (sort.Reverse ByWeight) parsed) EmptyString [])
    /\ c = avg (snd (title_loop (sort.Stable (sort.Reverse ByWeight) parsed) EmptyString [])).
Proof.
  unfold ocrImage.
  destruct (negb (tesseract_run w tiffFile outputPrefix)); [discriminate |].
  destruct (hocr_read w (outputPrefix +:+ ".hocr")) as [| |doc] eqn:Hd; try discriminate.
  destruct (parse_words [] (Find_page_1_words doc)) as [parsed|f] eqn:Hp;
    simpl; [| discriminate].
  destruct (negb (create_file w (outputPrefix +:+ "-title.txt"))); [discriminate |].
  destruct (title_loop (sort.Stable (sort.Reverse ByWeight) parsed) EmptyString [])
    as [t' cs] eqn:Hl.
  intros H. injection H as <- <-.
  exists doc, parsed. rewrite Hl. repeat split; assumption || reflexivity.
Qed.




(** ** The rotation loop *)

Section ControllerFacts.

Context {U : UnicodeTables}.

Lemma goodEnough_true (c : Q) : goodEnough_of c = true <-> (70 < c)%Q.
Proof.
  unfold goodEnough_of. rewrite negb_true_iff.
  split.
  - intros H. apply Qnot_le_lt. intros Hle.
    apply Qle_bool_iff in Hle. congruence.
  - intros H. destruct (Qle_bool c 70) eqn:E; [| reflexivity].
    apply Qle_bool_iff in E. exfalso. exact (Qlt_not_le _ _ H E).
Qed.

Lemma goodEnough_false (c : Q) : goodEnough_of c = false <-> (c <= 70)%Q.
Proof.
  unfold goodEnough_of. rewrite negb_false_iff. apply Qle_bool_iff.
Qed.

Lemma prepare_prefix (w : World) (id tiffFile : string) (angle : Z) (p i : string) :
  prepare w id tiffFile angle = Done (p, i) -> p = candidate_prefix id angle.
Proof.
  unfold prepare, candidate_prefix. destruct (angle =? 0).
  - intros H. now injection H as <- _.
  - destruct (convert_run w tiffFile angle _); [| discriminate].
    intros H. now injection H as <- _.
Qed.

Lemma evaluates_prefix w id tiffFile angle p t c :
  evaluates w id tiffFile angle p t c -> p = candidate_prefix id angle.
Proof. intros (i & Hp & _). eapply prepare_prefix, Hp. Qed.

Lemma loop_step w id tiffFile angle rest st p t c :
  evaluates w id tiffFile angle p t c ->
  rotation_loop w id tiffFile (angle :: rest) st
  = if goodEnough_of c then Done (update st p t c)
    else rotation_loop w id tiffFile rest (update st p t c).
Proof.
  intros (i & Hp & Ho). simpl. rewrite Hp. simpl. rewrite Ho. reflexivity.
Qed.

Lemma update_evaluated st p t c : evaluated (update st p t c) = evaluated st ++ [p].
Proof. unfold update. destruct (_ || _); reflexivity. Qed.

Lemma update_good st p t c :
  (70 < c)%Q -> title (update st p t c) = t /\ outputPrefix (update st p t c) = p.
Proof.
  intros H. apply goodEnough_true in H. unfold update. rewrite H. now split.
Qed.

Lemma update_first st p t c :
  title st = EmptyString ->
  title (update st p t c) = t /\ outputPrefix (update st p t c) = p.
Proof.
  intros H. unfold update. rewrite H, orb_true_r. now split.
Qed.

Lemma update_keep st p t c :
  (c <= 70)%Q -> title st <> EmptyString ->
  title (update st p t c) = title st /\ outputPrefix (update st p t c) = outputPrefix st.
Proof.
  intros Hc Ht. apply goodEnough_false in Hc. unfold update. rewrite Hc.
  destruct (GoString.len (title st) =? 0) eqn:E.
  - apply len_zero_iff in E. contradiction.
  - now split.
Qed.

(** Candidates that complete below the threshold are all evaluated, in
    order; a non-empty provisional best survives them. *)
Lemma loop_low (w : World) (id tiffFile : string) (pre : list Z) :
  Forall (low w id tiffFile) pre ->
  forall st, exists st',
    (forall rest, rotation_loop w id tiffFile (pre ++ rest) st
                  = rotation_loop w id tiffFile rest st')
    /\ evaluated st' = evaluated st ++ map (candidate_prefix id) pre
    /\ (title st <> EmptyString ->
        title st' = title st /\ outputPrefix st' = outputPrefix st).
Proof.
  induction 1 as [|angle pre (p & t & c & He & Hc) _ IH]; intros st.
  - exists st. simpl. rewrite app_nil_r. repeat split; reflexivity.
  - destruct (IH (update st p t c)) as (st' & Hrun & Hev & Hkeep).
    exists st'. split; [| split].
    + intros rest. simpl app. rewrite (loop_step _ _ _ _ _ _ _ _ _ He).
      apply goodEnough_false in Hc. rewrite Hc. apply Hrun.
    + rewrite Hev, update_evaluated, <- app_assoc. simpl.
      now rewrite (evaluates_prefix _ _ _ _ _ _ _ He).
    + intros Hne. destruct (update_keep st p t c Hc Hne) as [Ht Hp].
      destruct Hkeep as [Ht' Hp']; [congruence |]. split; congruence.
Qed.

Lemma last_cons_default {A} (x d : A) (l : list A) :
  List.last (x :: l) d = List.last l x.
Proof.
  revert x d. induction l as [|y l IH]; intros x d; [reflexivity |].
  change (List.last (x :: y :: l) d) with (List.last (y :: l) d).
  rewrite IH. symmetry. apply IH.
Qed.

(** While every title is empty, each candidate overwrites the provisional
    best. *)
Lemma loop_low_empty (w : World) (id tiffFile : string) (pre : list Z) :
  Forall (low_empty w id tiffFile) pre ->
  forall st, title st = EmptyString -> exists st',
    (forall rest, rotation_loop w id tiffFile (pre ++ rest) st
                  = rotation_loop w id tiffFile rest st')
    /\ evaluated st' = evaluated st ++ map (candidate_prefix id) pre
    /\ title st' = EmptyString
    /\ outputPrefix st' = List.last (map (candidate_prefix id) pre) (outputPrefix st).
Proof.
  induction 1 as [|angle pre (p & c & He & Hc) _ IH]; intros st Hst.
  - exists st. simpl. rewrite app_nil_r. repeat split; try reflexivity. exact Hst.
  - destruct (update_first st p EmptyString c Hst) as [Ht Hp].
    destruct (IH (update st p EmptyString c) Ht) as (st' & Hrun & Hev & Ht' & Hp').
    exists st'. split; [| split; [| split]].
    + intros rest. simpl app. rewrite (loop_step _ _ _ _ _ _ _ _ _ He).
      apply goodEnough_false in Hc. rewrite Hc. apply Hrun.
    + rewrite Hev, update_evaluated, <- app_assoc. simpl.
      now rewrite (evaluates_prefix _ _ _ _ _ _ _ He).
    + exact Ht'.
    + rewrite Hp', Hp, (evaluates_prefix _ _ _ _ _ _ _ He).
      simpl map. symmetry. apply last_cons_default.
Qed.

Lemma low_empty_low w id tiffFile angle :
  low_empty w id tiffFile angle -> low w id tiffFile angle.
Proof. intros (p & c & He & Hc). now exists p, EmptyString, c. Qed.

End ControllerFacts.

(** C2. In a run of the rotation loop, a candidate reached after
    candidates that completed with confidence at most 70 and whose own
    confidence is strictly above 70 becomes the provisional best (title
    and output prefix) and ends the loop: the run returns that result and
    the candidates handed to [ocrImage] are exactly the earlier ones and
    this one, whatever angles follow in the list. *)
Theorem C2_good_enough_halts `{U : UnicodeTables}
        (w : World) (id tiffFile : string) (pre post : list Z) (angle : Z)
        (p t : string) (c : Q) :
  Forall (low w id tiffFile) pre ->
  evaluates w id tiffFile angle p t c ->
  (70 < c)%Q ->
  exists st,
    run_rotations w id tiffFile (pre ++ angle :: post) = Done st
    /\ title st = t
    /\ outputPrefix st = p
    /\ p = candidate_prefix id angle
    /\ evaluated st = map (candidate_prefix id) pre ++ [p].
Proof.
  intros Hpre He Hc. unfold run_rotations.
  destruct (loop_low w id tiffFile pre Hpre controller_init) as (st' & Hrun & Hev & _).
  rewrite Hrun, (loop_step _ _ _ _ _ _ _ _ _ He).
  pose proof (proj2 (goodEnough_true c) Hc) as Hg. rewrite Hg.
  destruct (update_good st' p t c Hc) as [Ht Hp].
  exists (update st' p t c). split; [reflexivity |].
  split; [exact Ht |]. split; [exact Hp |].
  split; [eapply evaluates_prefix, He |].
  rewrite update_evaluated, Hev. reflexivity.
Qed.

(** C3. When every candidate completes with confidence at most 70, all
    of them are evaluated in order, and the first candidate with a
    non-empty title is the provisional best at the end: the candidates
    after it, not being good enough, never overwrite it, whatever their
    confidence. *)
Theorem C3_first_nonempty_kept `{U : UnicodeTables}
        (w : World) (id tiffFile : string) (pre post : list Z) (angle : Z)
        (p t : string) (c : Q) :
  Forall (low_empty w id tiffFile) pre ->
  evaluates w id tiffFile angle p t c ->
  (c <= 70)%Q ->
  t <> EmptyString ->
  Forall (low w id tiffFile) post ->
  exists st,
    run_rotations w id tiffFile (pre ++ angle :: post) = Done st
    /\ title st = t
    /\ outputPrefix st = p
    /\ evaluated st = map (candidate_prefix id) (pre ++ angle :: post).
Proof.
  intros Hpre He Hc Hne Hpost. unfold run_rotations.
  destruct (loop_low_empty w id tiffFile pre Hpre controller_init eq_refl)
    as (st1 & Hrun1 & Hev1 & Ht1 & _).
  destruct (update_first st1 p t c Ht1) as [Ht2 Hp2].
  destruct (loop_low w id tiffFile post Hpost (update st1 p t c))
    as (st3 & Hrun3 & Hev3 & Hkeep).
  destruct Hkeep as [Ht3 Hp3]; [congruence |].
  exists st3. rewrite Hrun1, (loop_step _ _ _ _ _ _ _ _ _ He).
  pose proof (proj2 (goodEnough_false c) Hc) as Hg. rewrite Hg.
  specialize (Hrun3 []). rewrite app_nil_r in Hrun3. rewrite Hrun3.
  split; [reflexivity |]. split; [congruence |]. split; [congruence |].
  rewrite Hev3, update_evaluated, Hev1, map_app. simpl.
  rewrite <- (evaluates_prefix _ _ _ _ _ _ _ He), <- app_assoc. reflexivity.
Qed.

(** C10. When every candidate completes with confidence at most 70 and
    an empty title, each in turn overwrites the provisional best, and the
    run ends with the empty title and the output prefix of the last
    candidate of the rotation order. *)
Theorem C10_all_empty_last_prefix `{U : UnicodeTables}
        (w : World) (id tiffFile : string) (pre : list Z) (last : Z) :
  Forall (low_empty w id tiffFile) (pre ++ [last]) ->
  exists st,
    run_rotations w id tiffFile (pre ++ [last]) = Done st
    /\ title st = EmptyString
    /\ outputPrefix st = candidate_prefix id last
    /\ evaluated st = map (candidate_prefix id) (pre ++ [last]).
Proof.
  intros Hall. unfold run_rotations.
  destruct (loop_low_empty w id tiffFile (pre ++ [last]) Hall controller_init eq_refl)
    as (st & Hrun & Hev & Ht & Hp).
  exists st. specialize (Hrun []). rewrite app_nil_r in Hrun.
  split; [exact Hrun |]. split; [exact Ht |].
  split; [| exact Hev].
  rewrite Hp, map_app. simpl. apply last_last.
Qed.

(** Evaluate a candidate of a concrete world. *)
Ltac run_candidate := eexists; split; vm_compute; reflexivity.
Ltac q_compare := unfold Qle, Qlt; simpl; lia.

(** The runs of the specification's examples, evaluated. *)
Example run_40_85_95_30 :
  @run_rotations latin1 world_halt "doc" "doc.tiff" rotations_default
  = Done {| title := "south "; outputPrefix := "ocr-doc-r180";
            evaluated := ["ocr-doc"; "ocr-doc-r180"]%string |}.
Proof. vm_compute. reflexivity. Qed.

Example run_40_55_60_30 :
  @run_rotations latin1 world_first_kept "doc" "doc.tiff" rotations_default
  = Done {| title := "a "; outputPrefix := "ocr-doc";
            evaluated := ["ocr-doc"; "ocr-doc-r180"; "ocr-doc-r90"; "ocr-doc-r270"]%string |}.
Proof. vm_compute. reflexivity. Qed.

Example run_all_empty :
  @run_rotations latin1 world_all_empty "doc" "doc.tiff" rotations_default
  = Done {| title := EmptyString; outputPrefix := "ocr-doc-r270";
            evaluated := ["ocr-doc"; "ocr-doc-r180"; "ocr-doc-r90"; "ocr-doc-r270"]%string |}.
Proof. vm_compute. reflexivity. Qed.

Lemma C2_witness_40_85_95_30 :
  Forall (@low latin1 world_halt "doc" "doc.tiff") [0]
  /\ @evaluates latin1 world_halt "doc" "doc.tiff" 180 "ocr-doc-r180" "south " (425 # 5)
  /\ (70 < 425 # 5)%Q
  /\ exists st,
      @run_rotations latin1 world_halt "doc" "doc.tiff" ([0] ++ 180 :: [90; 270]) = Done st
      /\ title st = "south "%string
      /\ outputPrefix st = "ocr-doc-r180"%string
      /\ "ocr-doc-r180"%string = candidate_prefix "doc" 180
      /\ evaluated st = map (candidate_prefix "doc") [0] ++ ["ocr-doc-r180"%string].
Proof.
  assert (H0 : Forall (@low latin1 world_halt "doc" "doc.tiff") [0]).
  { constructor; [| constructor].
    exists "ocr-doc"%string, EmptyString, (200 # 5)%Q. split; [run_candidate | q_compare]. }
  assert (H1 : @evaluates latin1 world_halt "doc" "doc.tiff" 180
                          "ocr-doc-r180" "south " (425 # 5)) by run_candidate.
  assert (H2 : (70 < 425 # 5)%Q) by q_compare.
  split; [exact H0 |]. split; [exact H1 |]. split; [exact H2 |].
  exact (@C2_good_enough_halts latin1 world_halt "doc" "doc.tiff" [0] [90; 270] 180
           "ocr-doc-r180" "south " (425 # 5) H0 H1 H2).
Defined.

Lemma C3_witness_40_55_60_30 :
  Forall (@low_empty latin1 world_first_kept "doc" "doc.tiff") []
  /\ @evaluates latin1 world_first_kept "doc" "doc.tiff" 0 "ocr-doc" "a " (360 # 9)
  /\ (360 # 9 <= 70)%Q
  /\ "a "%string <> EmptyString
  /\ Forall (@low latin1 world_first_kept "doc" "doc.tiff") [180; 90; 270]
  /\ exists st,
      @run_rotations latin1 world_first_kept "doc" "doc.tiff" ([] ++ 0 :: [180; 90; 270])
      = Done st
      /\ title st = "a "%string
      /\ outputPrefix st = "ocr-doc"%string
      /\ evaluated st = map (candidate_prefix "doc") ([] ++ 0 :: [180; 90; 270]).
Proof.
  assert (H0 : Forall (@low_empty latin1 world_first_kept "doc" "doc.tiff") [])
    by constructor.
  assert (H1 : @evaluates latin1 world_first_kept "doc" "doc.tiff" 0
                          "ocr-doc" "a " (360 # 9)) by run_candidate.
  assert (H2 : (360 # 9 <= 70)%Q) by q_compare.
  assert (H3 : "a "%string <> EmptyString) by discriminate.
  assert (H4 : Forall (@low latin1 world_first_kept "doc" "doc.tiff") [180; 90; 270]).
  { constructor; [| constructor; [| constructor; [| constructor]]].
    - exists "ocr-doc-r180"%string, "b "%string, (275 # 5)%Q.
      split; [run_candidate | q_compare].
    - exists "ocr-doc-r90"%string, "c "%string, (300 # 5)%Q.
      split; [run_candidate | q_compare].
    - exists "ocr-doc-r270"%string, "d "%string, (180 # 6)%Q.
      split; [run_candidate | q_compare]. }
  split; [exact H0 |]. split; [exact H1 |]. split; [exact H2 |].
  split; [exact H3 |]. split; [exact H4 |].
  exact (@C3_first_nonempty_kept latin1 world_first_kept "doc" "doc.tiff" []
           [180; 90; 270] 0 "ocr-doc" "a " (360 # 9) H0 H1 H2 H3 H4).
Defined.

Lemma C10_witness_all_empty :
  Forall (@low_empty latin1 world_all_empty "doc" "doc.tiff") ([0; 180; 90] ++ [270])
  /\ exists st,
      @run_rotations latin1 world_all_empty "doc" "doc.tiff" ([0; 180; 90] ++ [270]) = Done st
      /\ title st = EmptyString
      /\ outputPrefix st = candidate_prefix "doc" 270
      /\ evaluated st = map (candidate_prefix "doc") ([0; 180; 90] ++ [270]).
Proof.
  assert (H0 : Forall (@low_empty latin1 world_all_empty "doc" "doc.tiff")
                      ([0; 180; 90] ++ [270])).
  { simpl app. constructor; [| constructor; [| constructor; [| constructor; [| constructor]]]].
    - exists "ocr-doc"%string, (200 # 5)%Q. split; [run_candidate | q_compare].
    - exists "ocr-doc-r180"%string, (275 # 5)%Q. split; [run_candidate | q_compare].
    - exists "ocr-doc-r90"%string, (240 # 4)%Q. split; [run_candidate | q_compare].
    - exists "ocr-doc-r270"%string, (120 # 4)%Q. split; [run_candidate | q_compare]. }
  split; [exact H0 |].
  exact (@C10_all_empty_last_prefix latin1 world_all_empty "doc" "doc.tiff"
           [0; 180; 90] 270 H0).
Defined.

(** ** Parse failures and absent page scope *)

Lemma ocrImage_parse_error `{U : UnicodeTables} (w : World) (i p : string) :
  tesseract_run w i p = true ->
  hocr_read w (p +:+ ".hocr") = ParseError ->
  ocrImage w i p = Abort HocrParseFailed.
Proof. intros Ht Hh. unfold ocrImage. rewrite Ht, Hh. reflexivity. Qed.

Lemma ocrImage_no_scope `{U : UnicodeTables} (w : World) (i p : string) (doc : Document) :
  tesseract_run w i p = true ->
  hocr_read w (p +:+ ".hocr") = Parsed doc ->
  page_1 doc = None ->
  create_file w (p +:+ "-title.txt") = true ->
  ocrImage w i p = Done (EmptyString, 0%Q).
Proof.
  intros Ht Hh Hd Hc. unfold ocrImage, Find_page_1_words.
  rewrite Ht, Hh, Hd. simpl. rewrite Hc. reflexivity.
Qed.

(** C7, as amended.  For a candidate whose rotation and tesseract run
    succeeded: when goquery cannot parse its markup, [ocrImage] ends the
    process at once (log.Fatal), so a run that reaches this candidate
    aborts and tries no later angle; when the markup parses but has no
    element with id page_1, the candidate is an empty title with
    confidence 0 and the loop goes on to the next angle with the
    provisional best updated as for any other candidate of confidence
    0. *)
Theorem C7_parse_error_fatal_no_scope_zero `{U : UnicodeTables}
        (w : World) (id tiffFile : string) (angle : Z) (p i : string) :
  prepare w id tiffFile angle = Done (p, i) ->
  tesseract_run w i p = true ->
  (hocr_read w (p +:+ ".hocr") = ParseError ->
   ocrImage w i p = Abort HocrParseFailed
   /\ forall pre post st,
       Forall (low w id tiffFile) pre ->
       rotation_loop w id tiffFile (pre ++ angle :: post) st = Abort HocrParseFailed)
  /\ (forall doc,
       hocr_read w (p +:+ ".hocr") = Parsed doc ->
       page_1 doc = None ->
       create_file w (p +:+ "-title.txt") = true ->
       ocrImage w i p = Done (EmptyString, 0%Q)
       /\ forall rest st,
           rotation_loop w id tiffFile (angle :: rest) st
           = rotation_loop w id tiffFile rest (update st p EmptyString 0%Q)).
Proof.
  intros Hp Ht. split.
  - intros Hh. pose proof (ocrImage_parse_error w i p Ht Hh) as Ho.
    split; [exact Ho |].
    intros pre post st Hpre.
    destruct (loop_low w id tiffFile pre Hpre st) as (st' & Hrun & _).
    rewrite Hrun. simpl. rewrite Hp. simpl. rewrite Ho. reflexivity.
  - intros doc Hh Hd Hc. pose proof (ocrImage_no_scope w i p doc Ht Hh Hd Hc) as Ho.
    split; [exact Ho |].
    intros rest st.
    rewrite (loop_step w id tiffFile angle rest st p EmptyString 0%Q); [reflexivity |].
    exists i. now split.
Qed.

Lemma C7_witness_both_cases :
  (prepare world_parse_error "doc" "doc.tiff" 0 = Done ("ocr-doc"%string, "doc.tiff"%string)
   /\ tesseract_run world_parse_error "doc.tiff" "ocr-doc" = true
   /\ hocr_read world_parse_error ("ocr-doc" +:+ ".hocr") = ParseError
   /\ @ocrImage latin1 world_parse_error "doc.tiff" "ocr-doc" = Abort HocrParseFailed
   /\ @rotation_loop latin1 world_parse_error "doc" "doc.tiff" ([] ++ 0 :: [180; 90; 270])
        controller_init = Abort HocrParseFailed)
  /\ (prepare world_no_scope "doc" "doc.tiff" 0 = Done ("ocr-doc"%string, "doc.tiff"%string)
      /\ tesseract_run world_no_scope "doc.tiff" "ocr-doc" = true
      /\ hocr_read world_no_scope ("ocr-doc" +:+ ".hocr") = Parsed {| page_1 := None |}
      /\ @ocrImage latin1 world_no_scope "doc.tiff" "ocr-doc" = Done (EmptyString, 0%Q)
      /\ @rotation_loop latin1 world_no_scope "doc" "doc.tiff" (0 :: [180; 90; 270])
           controller_init
         = @rotation_loop latin1 world_no_scope "doc" "doc.tiff" [180; 90; 270]
             (update controller_init "ocr-doc" EmptyString 0%Q)).
Proof.
  split.
  - assert (Hp : prepare world_parse_error "doc" "doc.tiff" 0
                 = Done ("ocr-doc"%string, "doc.tiff"%string)) by reflexivity.
    assert (Ht : tesseract_run world_parse_error "doc.tiff" "ocr-doc" = true) by reflexivity.
    assert (Hh : hocr_read world_parse_error ("ocr-doc" +:+ ".hocr") = ParseError)
      by reflexivity.
    destruct (@C7_parse_error_fatal_no_scope_zero latin1 world_parse_error
                "doc" "doc.tiff" 0 "ocr-doc" "doc.tiff" Hp Ht) as [Ha _].
    destruct (Ha Hh) as [Ho Hl].
    split; [exact Hp |]. split; [exact Ht |]. split; [exact Hh |]. split; [exact Ho |].
    apply Hl. constructor.
  - assert (Hp : prepare world_no_scope "doc" "doc.tiff" 0
                 = Done ("ocr-doc"%string, "doc.tiff"%string)) by reflexivity.
    assert (Ht : tesseract_run world_no_scope "doc.tiff" "ocr-doc" = true) by reflexivity.
    assert (Hh : hocr_read world_no_scope ("ocr-doc" +:+ ".hocr")
                 = Parsed {| page_1 := None |}) by reflexivity.
    destruct (@C7_parse_error_fatal_no_scope_zero latin1 world_no_scope
                "doc" "doc.tiff" 0 "ocr-doc" "doc.tiff" Hp Ht) as [_ Hb].
    destruct (Hb {| page_1 := None |} Hh eq_refl eq_refl) as [Ho Hl].
    split; [exact Hp |]. split; [exact Ht |]. split; [exact Hh |]. split; [exact Ho |].
    apply Hl.
Defined.

(** C7, as stated, fails: the markup of the first candidate does not
    parse and the candidate at 180 degrees would complete with confidence
    85, yet the run aborts at the first candidate instead of moving on. *)
Lemma C7_counterexample_parse_error_aborts :
  hocr_read world_parse_error "ocr-doc.hocr" = ParseError
  /\ @evaluates latin1 world_parse_error "doc" "doc.tiff" 180 "ocr-doc-r180" "south " (425 # 5)
  /\ @run_rotations latin1 world_parse_error "doc" "doc.tiff" rotations_default
     = Abort HocrParseFailed
  /\ ~ exists st, @run_rotations latin1 world_parse_error "doc" "doc.tiff" rotations_default
                  = Done st.
Proof.
  split; [reflexivity |]. split; [run_candidate |].
  assert (H : @run_rotations latin1 world_parse_error "doc" "doc.tiff" rotations_default
              = Abort HocrParseFailed) by (vm_compute; reflexivity).
  split; [exact H |]. intros [st Hst]. rewrite H in Hst. discriminate Hst.
Qed.

(** ** The word parser *)

Section ParserFacts.


Lemma Split_cut (s : string) (sep : ascii) :
  GoString.Split s sep
  = match GoString.cut s sep with
    | Some (a, b) => a :: GoString.Split b sep
    | None => [s]
    end.
Proof.
  induction s as [|c s IH]; simpl; [reflexivity |].
  destruct (Ascii.eqb c sep); [reflexivity |].
  rewrite IH. destruct (GoString.cut s sep) as [[a b]|]; reflexivity.
Qed.

Lemma cut_app (a rest : string) (sep : ascii) :
  GoString.cut a sep = None ->
  GoString.cut (a +:+ String sep rest) sep = Some (a, rest).
Proof.
  induction a as [|c a IH]; intros H.
  - rewrite app_nil_l. simpl. now rewrite Ascii.eqb_refl.
  - rewrite app_cons. simpl in *. destruct (Ascii.eqb c sep); [discriminate |].
    destruct (GoString.cut a sep) as [[x y]|]; [discriminate |].
    now rewrite IH.
Qed.

Lemma SplitN_2 (s : string) (sep : ascii) :
  GoString.SplitN s sep 2
  = match GoString.cut s sep with
    | Some (a, b) => [a; b]
    | None => [s]
    end.
Proof. simpl. destruct (GoString.cut s sep) as [[a b]|]; reflexivity. Qed.






Lemma parse_word_Done (s : Selection) (w : Word) :
  parse_word s = Done w ->
  exists props top,
    parse_props s = Done props
    /\ index (GoString.Split (map_get_string props "bbox") " ") 1 = Done top
    /\ w = {| text := Text s;
              fontSize := fst (strconv.Atoi (map_get_string props "x_fsize"));
              confidence := fst (strconv.Atoi (map_get_string props "x_wconf"));
              isStrong := (0 <? strong_size s)%nat;
              isEm := (0 <? em_size s)%nat;
              height := fst (strconv.Atoi top);
              weight := score (fst (strconv.Atoi (map_get_string props "x_fsize")))
                              (fst (strconv.Atoi top))
                              (map_get_bool wordStoplist (Text s));
              props := props |}.
Proof.
  unfold parse_word.
  destruct (parse_props s) as [props|f] eqn:Ep; simpl; [| discriminate].
  destruct (index (GoString.Split (map_get_string props "bbox") " ") 1) as [top|f] eqn:Ei;
    simpl; [| discriminate].
  intros H. injection H as <-. exists props, top.
  split; [reflexivity |]. split; [exact Ei | reflexivity].
Qed.






End ParserFacts.



(** Font size 12: weight 120; with height 1500 and the text "Herr" both
    penalties apply and the weight is -30. *)
Example weights_evaluated :
  (exists w, parse_word elem_usual = Done w /\ weight w = 120)
  /\ (exists w, parse_word elem_tall_denied = Done w /\ weight w = -30).
Proof.
  split; eexists; (split; [vm_compute; reflexivity |]); vm_compute; reflexivity.
Qed.



(** The element without x_wconf and with a non-numeric x_fsize parses
    with both fields 0. *)
Example defaults_evaluated :
  exists w, parse_word elem_no_sizes = Done w /\ fontSize w = 0 /\ confidence w = 0.
Proof.
  eexists. split; [vm_compute; reflexivity |]. split; vm_compute; reflexivity.
Qed.





(** ** Checks of the library functions on small inputs *)

Example Split_evaluated :
  GoString.Split "a b  c" " " = ["a"; "b"; EmptyString; "c"]%string
  /\ GoString.Split EmptyString ";" = [EmptyString]
  /\ GoString.SplitN "bbox 1 2 3 4" " " 2 = ["bbox"; "1 2 3 4"]%string
  /\ GoString.SplitN EmptyString " " 2 = [EmptyString]
  /\ GoString.TrimLeft "  x_wconf 90" " " = "x_wconf 90"%string.
Proof. repeat split; reflexivity. Qed.

Example Itoa_evaluated :
  strconv.Itoa 180 = "180"%string
  /\ strconv.Itoa 0 = "0"%string
  /\ strconv.Itoa (-5) = "-5"%string.
Proof. repeat split; vm_compute; reflexivity. Qed.

Example Atoi_evaluated :
  strconv.Atoi "-12" = (-12, None)
  /\ strconv.Atoi "+7" = (7, None)
  /\ strconv.Atoi "1x" = (0, Some strconv.ErrSyntax)
  /\ strconv.Atoi EmptyString = (0, Some strconv.ErrSyntax)
  /\ strconv.Atoi "99999999999999999999" = (GoInt.MaxInt, Some strconv.ErrRange).
Proof. repeat split; vm_compute; reflexivity. Qed.

Example runes_evaluated :
  utf8.runes (bytes [195; 182; 97; 226; 130; 172]) = [246; 97; 8364]
  /\ utf8.runes (bytes [255; 97; 195]) = [utf8.RuneError; 97; utf8.RuneError].
Proof. split; vm_compute; reflexivity. Qed.

(** On ASCII text the byte length and the number of characters agree,
    so there the cap of the title walk is 80 characters as well. *)
Lemma rune_count_ascii (s : string) :
  ascii_only s = true -> rune_count s = GoString.len s.
Proof.
  unfold rune_count, GoString.len. induction s as [|c s IH]; [reflexivity |].
  simpl ascii_only. intros H. apply andb_true_iff in H as [Hc Hs].
  simpl utf8.runes. destruct (utf8.second_bounds (GoString.byte_code c)) as [lo hi].
  rewrite Hc. simpl length. simpl String.length.
  specialize (IH Hs). lia.
Qed.

(** * Further properties of the code *)

(** ** Shape of the title *)

Section TitleShape.

Context {U : UnicodeTables}.

Lemma join_app (a b : list Word) : join (a ++ b) = join a +:+ join b.
Proof.
  induction a as [|w a IH]; [reflexivity |].
  simpl. rewrite IH, app_assoc_s. reflexivity.
Qed.

Lemma join_single (w : Word) :
  join [w] = if qualifies w then text w +:+ " " else EmptyString.
Proof. simpl. now rewrite app_empty_r. Qed.

Lemma join_ends_with_space (ws : list Word) :
  join ws = EmptyString \/ exists t, join ws = t +:+ " ".
Proof.
  induction ws as [|w ws IH]; [now left |].
  simpl. destruct (qualifies w).
  - right. destruct IH as [-> | [t ->]].
    + exists (text w). now rewrite app_empty_r.
    + exists (text w +:+ " " +:+ t). now rewrite !app_assoc_s.
  - rewrite app_nil_l. exact IH.
Qed.

Lemma title_loop_unqualified (words : list Word) :
  Forall (fun w => qualifies w = false) words ->
  forall cs, title_loop words EmptyString cs = (EmptyString, cs ++ samples words).
Proof.
  induction 1 as [|w words Hw _ IH]; intros cs.
  - simpl. now rewrite app_nil_r.
  - rewrite title_loop_step. cbv zeta. rewrite Hw, app_empty_r.
    change (80 <? GoString.len EmptyString) with false. cbv iota.
    rewrite IH, (samples_cons w words), app_assoc. reflexivity.
Qed.

End TitleShape.

(** X1. A title returned by [ocrImage] is either empty or ends with a
    space: every word is appended together with a trailing space and
    nothing trims it afterwards. *)
Theorem X1_title_ends_with_space `{U : UnicodeTables}
        (w : World) (tiffFile outputPrefix t : string) (c : Q) :
  ocrImage w tiffFile outputPrefix = Done (t, c) ->
  t = EmptyString \/ exists t', t = t' +:+ " ".
Proof.
  intros H. apply ocrImage_Done in H as (doc & parsed & _ & _ & Ht & _).
  destruct (walk_from_empty (sort.Stable (sort.Reverse ByWeight) parsed))
    as (k & _ & Hk & _).
  rewrite Ht, Hk. apply join_ends_with_space.
Qed.

Lemma X1_witness :
  @ocrImage latin1 world_74 "doc.tiff" "ocr-doc" = Done ("abcd "%string, (370 # 5)%Q)
  /\ ("abcd "%string = EmptyString \/ exists t', "abcd "%string = t' +:+ " ").
Proof.
  assert (H : @ocrImage latin1 world_74 "doc.tiff" "ocr-doc"
              = Done ("abcd "%string, (370 # 5)%Q)) by (vm_compute; reflexivity).
  split; [exact H |].
  exact (@X1_title_ends_with_space latin1 world_74 "doc.tiff" "ocr-doc" _ _ H).
Defined.

(** X2. The title walk overshoots the cap of 80 bytes by at most one
    word: a title longer than 80 bytes is a prefix of at most 80 bytes
    followed by the text of one qualifying word and a space. *)
Theorem X2_title_overshoot_one_word `{U : UnicodeTables} (words : list Word) :
  let t := fst (title_loop words EmptyString []) in
  GoString.len t <= 80
  \/ exists pre w,
      w ∈ words /\ qualifies w = true
      /\ t = pre +:+ text w +:+ " "
      /\ GoString.len pre <= 80
      /\ GoString.len t <= 81 + GoString.len (text w).
Proof.
  cbv zeta. destruct (walk_from_empty words) as (k & Hk & Ht & _ & Hj & _).
  rewrite Ht. destruct (Z.le_gt_cases (GoString.len (join (take k words))) 80) as [Hle | Hgt];
    [now left | right].
  destruct k as [|k]; [simpl in Hgt; unfold GoString.len in Hgt; simpl in Hgt; lia |].
  destruct (lookup_lt_is_Some_2 words k) as [w Hw]; [lia |].
  rewrite (take_S_r _ _ _ Hw), join_app, join_single in *.
  specialize (Hj k (Nat.lt_succ_diag_r k)).
  destruct (qualifies w) eqn:Hq.
  - exists (join (take k words)), w.
    split; [eapply list_elem_of_lookup_2, Hw |]. split; [exact Hq |].
    split; [reflexivity |]. split; [exact Hj |].
    rewrite !len_app. change (GoString.len " ") with 1. lia.
  - rewrite app_empty_r in Hgt. lia.
Qed.

(** X3. Words that do not pass the gate of the title (no letter or
    digit, or confidence at most 70) leave the title empty but are all
    visited: each still contributes its samples to the confidence. *)
Theorem X3_unqualified_words_empty_title `{U : UnicodeTables} (words : list Word) :
  Forall (fun w => qualifies w = false) words ->
  title_loop words EmptyString [] = (EmptyString, samples words).
Proof. intros H. exact (title_loop_unqualified words H []). Qed.

Lemma X3_witness :
  Forall (fun w => @qualifies latin1 w = false) [word_of "north" 40; word_of "--" 95]
  /\ @title_loop latin1 [word_of "north" 40; word_of "--" 95] EmptyString []
     = (EmptyString, @samples latin1 [word_of "north" 40; word_of "--" 95]).
Proof.
  assert (H : Forall (fun w => @qualifies latin1 w = false)
                     [word_of "north" 40; word_of "--" 95]).
  { constructor; [vm_compute; reflexivity |].
    constructor; [vm_compute; reflexivity | constructor]. }
  split; [exact H |].
  exact (@X3_unqualified_words_empty_title latin1 _ H).
Defined.

(** ** avg *)








(** Two words of confidence 9223372036854775807: the sum wraps to -2 and
    the average is -1. *)
Example avg_overflow_evaluated : (avg [GoInt.MaxInt; GoInt.MaxInt] == -1)%Q.
Proof. vm_compute. reflexivity. Qed.

(** ** The words of a page and the property map *)

Section PageFacts.

Lemma parse_words_acc (l : list Selection) :
  forall acc ws,
    parse_words acc l = Done ws
    <-> exists ws', ws = acc ++ ws' /\ Forall2 (fun s w => parse_word s = Done w) l ws'.
Proof.
  induction l as [|s l IH]; intros acc ws; simpl.
  - split.
    + intros H. injection H as <-. exists []. rewrite app_nil_r. split; [reflexivity | constructor].
    + intros (ws' & -> & H). inversion H. now rewrite app_nil_r.
  - destruct (parse_word s) as [w|f] eqn:Es; simpl.
    + rewrite IH. split.
      * intros (ws' & -> & H). exists (w :: ws'). rewrite <- app_assoc.
        split; [reflexivity | now constructor].
      * intros (ws' & -> & H). inversion H as [|? w' ? ws'' Hw Hrest]; subst.
        rewrite Es in Hw. injection Hw as <-.
        exists ws''. rewrite <- app_assoc. split; [reflexivity | exact Hrest].
    + split; [discriminate |].
      intros (ws' & _ & H). inversion H as [|? w' ? ws'' Hw Hrest]; subst.
      rewrite Es in Hw. discriminate Hw.
Qed.

Lemma parse_word_text (s : Selection) (w : Word) :
  parse_word s = Done w -> text w = Text s.
Proof. intros H. apply parse_word_Done in H as (? & ? & _ & _ & ->). reflexivity. Qed.

Lemma parse_words_abort (l : list Selection) (s : Selection) (f : Fault) :
  s ∈ l -> parse_word s = Abort f ->
  forall acc, exists f', parse_words acc l = Abort f'.
Proof.
  induction l as [|x l IH]; intros Hin Hs acc; [now apply not_elem_of_nil in Hin |].
  simpl. apply elem_of_cons in Hin as [<- | Hin].
  - rewrite Hs. now exists f.
  - destruct (parse_word x) as [w|g]; simpl; [now apply IH | now exists g].
Qed.

Lemma add_prop_Done (m m1 : gmap string string) (prop : string) :
  add_prop m prop = Done m1 ->
  has_value prop = true /\ m1 = <[prop_name prop := prop_value prop]> m.
Proof.
  unfold add_prop, has_value, prop_name, prop_value. rewrite SplitN_2.
  destruct (GoString.cut (GoString.TrimLeft prop " ") " ") as [[n v]|]; simpl.
  - intros H. injection H as <-. now split.
  - discriminate.
Qed.

Lemma add_props_last (l : list string) :
  forall (m m' : gmap string string) (k : string),
    add_props m l = Done m' ->
    m' !! k = match last_value k l with
              | Some v => Some v
              | None => m !! k
              end.
Proof.
  induction l as [|prop l IH]; intros m m' k H; simpl in *.
  - now injection H as <-.
  - destruct (add_prop m prop) as [m1|f] eqn:E; simpl in H; [| discriminate].
    apply add_prop_Done in E as [_ ->].
    rewrite (IH _ _ k H). destruct (last_value k l); [reflexivity |].
    destruct (decide (prop_name prop = k)) as [<- | Hne].
    + now rewrite lookup_insert_eq.
    + now rewrite lookup_insert_ne.
Qed.

Lemma cut_left_clean (s a b : string) (c : ascii) :
  GoString.cut s c = Some (a, b) -> GoString.cut a c = None.
Proof.
  revert a b. induction s as [|x s IH]; intros a b; simpl; [discriminate |].
  destruct (Ascii.eqb x c) eqn:E.
  - intros H. now injection H as <- _.
  - destruct (GoString.cut s c) as [[a' b']|]; [| discriminate].
    intros H. injection H as <- _. simpl. rewrite E, (IH a' b' eq_refl). reflexivity.
Qed.

Lemma add_props_keys (l : list string) :
  forall (m m' : gmap string string) (k : string),
    add_props m l = Done m' ->
    is_Some (m' !! k) -> is_Some (m !! k) \/ no_space k.
Proof.
  induction l as [|prop l IH]; intros m m' k H Hk; simpl in *.
  - injection H as <-. now left.
  - destruct (add_prop m prop) as [m1|f] eqn:E; simpl in H; [| discriminate].
    destruct (IH _ _ k H Hk) as [Hm1 | Hns]; [| now right].
    apply add_prop_Done in E as [Hv ->].
    destruct (decide (prop_name prop = k)) as [<- | Hne].
    + right. unfold no_space, prop_name, has_value in *.
      destruct (GoString.cut (GoString.TrimLeft prop " ") " ") as [[n v]|] eqn:Ec;
        [| discriminate].
      eapply cut_left_clean, Ec.
    + left. now rewrite lookup_insert_ne in Hm1.
Qed.

End PageFacts.

(** X6. The closure of [Each] turns the word elements of a page into
    Word Records one for one and in document order, each with the text
    of its element; a single element on which the closure panics makes
    the whole page fail, wherever it stands. *)
Theorem X6_page_words_one_for_one (sels : list Selection) :
  (forall ws, parse_words [] sels = Done ws
              <-> Forall2 (fun s w => parse_word s = Done w) sels ws)
  /\ (forall ws, parse_words [] sels = Done ws -> map text ws = map Text sels)
  /\ (forall s f, s ∈ sels -> parse_word s = Abort f ->
                  exists f', parse_words [] sels = Abort f').
Proof.
  assert (H1 : forall ws, parse_words [] sels = Done ws
                          <-> Forall2 (fun s w => parse_word s = Done w) sels ws).
  { intros ws. rewrite parse_words_acc. split.
    - intros (ws' & -> & H). exact H.
    - intros H. now exists ws. }
  split; [exact H1 |]. split.
  - intros ws H. apply H1 in H. clear H1.
    induction H as [|s w l ws Hw _ IH]; [reflexivity |].
    simpl. now rewrite (parse_word_text s w Hw), IH.
  - intros s f Hin Hs. exact (parse_words_abort sels s f Hin Hs []).
Qed.

Lemma X6_witness :
  (exists ws, parse_words [] [elem_usual; elem_tall_denied] = Done ws
              /\ map text ws = map Text [elem_usual; elem_tall_denied])
  /\ (elem_no_bbox ∈ [elem_usual; elem_no_bbox]
      /\ parse_word elem_no_bbox = Abort IndexOutOfRange
      /\ exists f', parse_words [] [elem_usual; elem_no_bbox] = Abort f').
Proof.
  split.
  - eexists. split; [vm_compute; reflexivity |].
    apply (proj1 (proj2 (X6_page_words_one_for_one [elem_usual; elem_tall_denied]))).
    vm_compute; reflexivity.
  - assert (H1 : elem_no_bbox ∈ [elem_usual; elem_no_bbox])
      by (apply elem_of_cons; right; apply elem_of_cons; now left).
    assert (H2 : parse_word elem_no_bbox = Abort IndexOutOfRange)
      by (vm_compute; reflexivity).
    split; [exact H1 |]. split; [exact H2 |].
    exact (proj2 (proj2 (X6_page_words_one_for_one [elem_usual; elem_no_bbox]))
                 elem_no_bbox IndexOutOfRange H1 H2).
Defined.

(** X7. When a property name occurs several times in the title
    attribute of a word element, the property map holds the value of its
    last occurrence; a name that does not occur is absent. *)
Theorem X7_last_property_wins (s : Selection) (props0 : gmap string string) :
  parse_props s = Done props0 ->
  forall k, props0 !! k = last_value k (prop_list s).
Proof.
  intros H k. unfold parse_props in H. fold (prop_list s) in H.
  rewrite (add_props_last _ _ _ k H), lookup_empty.
  destruct (last_value k (prop_list s)); reflexivity.
Qed.

Lemma X7_witness :
  exists props0,
    parse_props elem_duplicate = Done props0
    /\ forall k, props0 !! k = last_value k (prop_list elem_duplicate).
Proof.
  eexists. split; [vm_compute; reflexivity |].
  apply (X7_last_property_wins elem_duplicate). vm_compute; reflexivity.
Defined.

(** The confidence stated last is the one of the Word Record. *)
Example duplicate_evaluated :
  exists w, parse_word elem_duplicate = Done w /\ confidence w = 90.
Proof. eexists. split; vm_compute; reflexivity. Qed.

(** X8. Every name stored in the property map is free of spaces: the
    name of a property ends at its first space. *)
Theorem X8_property_names_without_space (s : Selection) (props0 : gmap string string) :
  parse_props s = Done props0 ->
  forall k, is_Some (props0 !! k) -> no_space k.
Proof.
  intros H k Hk. unfold parse_props in H.
  destruct (add_props_keys _ _ _ k H Hk) as [Hm | Hns]; [| exact Hns].
  rewrite lookup_empty in Hm. destruct Hm as [? Hm]. discriminate Hm.
Qed.

Lemma X8_witness :
  exists props0,
    parse_props elem_usual = Done props0
    /\ forall k, is_Some (props0 !! k) -> no_space k.
Proof.
  eexists. split; [vm_compute; reflexivity |].
  apply (X8_property_names_without_space elem_usual). vm_compute; reflexivity.
Defined.

(** ** Reading back a rendered property string *)

Section RenderFacts.

Lemma cut_app_none (a b : string) (c : ascii) :
  GoString.cut a c = None -> GoString.cut b c = None ->
  GoString.cut (a +:+ b) c = None.
Proof.
  intros Ha Hb. induction a as [|x a IH]; [now rewrite app_nil_l |].
  rewrite app_cons. simpl in *. destruct (Ascii.eqb x c); [discriminate |].
  destruct (GoString.cut a c) as [[? ?]|]; [discriminate |].
  now rewrite IH.
Qed.

Lemma Split_skip (c sep : ascii) (s : string) :
  Ascii.eqb c sep = false ->
  GoString.Split (String c s) sep
  = match GoString.Split s sep with
    | h :: t => String c h :: t
    | [] => [String c EmptyString]
    end.
Proof. intros H. simpl. now rewrite H. Qed.

Lemma render_prop_no_semicolon (kv : string * string) :
  well_formed_prop kv -> GoString.cut (render_prop kv) ";" = None.
Proof.
  intros (_ & _ & Hk & Hv). unfold render_prop.
  apply cut_app_none; [exact Hk |]. apply cut_app_none; [reflexivity | exact Hv].
Qed.

Lemma TrimLeft_name (k rest : string) :
  k <> EmptyString -> no_byte " " k ->
  GoString.TrimLeft (k +:+ rest) " " = k +:+ rest.
Proof.
  intros Hne Hk. destruct k as [|c k]; [contradiction |].
  unfold no_byte in Hk. simpl in Hk.
  destruct (Ascii.eqb c " ") eqn:E; [discriminate |].
  rewrite app_cons. simpl. now rewrite E.
Qed.

Lemma add_prop_rendered (m : gmap string string) (kv : string * string) (lead : bool) :
  well_formed_prop kv ->
  add_prop m ((if lead then " " else EmptyString) +:+ render_prop kv)
  = Done (<[fst kv := snd kv]> m).
Proof.
  intros (Hne & Hk & _ & _). unfold add_prop. rewrite SplitN_2.
  assert (Ht : GoString.TrimLeft ((if lead then " " else EmptyString) +:+ render_prop kv) " "
               = render_prop kv).
  { destruct lead.
    - rewrite app_cons, app_nil_l. simpl. apply TrimLeft_name; assumption.
    - rewrite app_nil_l. apply TrimLeft_name; assumption. }
  rewrite Ht. unfold render_prop. rewrite app_cons, app_nil_l.
  rewrite (cut_app (fst kv) (snd kv) " " Hk). reflexivity.
Qed.

Lemma Split_rendered (rest : list (string * string)) :
  forall kv,
    Forall well_formed_prop (kv :: rest) ->
    GoString.Split (render_props (kv :: rest)) ";"
    = render_prop kv :: map (fun kv' => " " +:+ render_prop kv') rest.
Proof.
  induction rest as [|kv2 rest IH]; intros kv Hall.
  - apply Forall_cons in Hall as [Hkv _].
    change (render_props [kv]) with (render_prop kv).
    now rewrite Split_cut, (render_prop_no_semicolon kv Hkv).
  - apply Forall_cons in Hall as [Hkv Hrest].
    change (render_props (kv :: kv2 :: rest))
      with (render_prop kv +:+ "; " +:+ render_props (kv2 :: rest)).
    rewrite (app_cons ";" " "), (app_cons " " EmptyString), app_nil_l.
    rewrite Split_cut, (cut_app _ _ ";" (render_prop_no_semicolon kv Hkv)).
    f_equal. rewrite (Split_skip " " ";" _ eq_refl).
    rewrite (IH kv2 Hrest). reflexivity.
Qed.

Lemma add_props_rendered (rest : list (string * string)) :
  Forall well_formed_prop rest ->
  forall m,
    add_props m (map (fun kv' => " " +:+ render_prop kv') rest)
    = Done (fold_left (fun m kv => <[fst kv := snd kv]> m) rest m).
Proof.
  induction 1 as [|kv rest Hkv _ IH]; intros m; [reflexivity |].
  simpl map. simpl add_props.
  rewrite (add_prop_rendered m kv true Hkv). simpl. apply IH.
Qed.

End RenderFacts.

(** X9. Reading back a rendered property string: for a non-empty list
    of (name, value) pairs whose names are non-empty and free of spaces
    and semicolons and whose values are free of semicolons (they may
    contain spaces), the title attribute made of the pairs [name value]
    separated by a semicolon and a space parses into the map that binds
    each name to its value, a later pair overriding an earlier one. *)
Theorem X9_render_then_parse (kvs : list (string * string)) (s : Selection) :
  kvs <> [] ->
  Forall well_formed_prop kvs ->
  attr_title s = Some (render_props kvs) ->
  parse_props s = Done (props_of kvs).
Proof.
  intros Hne Hall Hs. destruct kvs as [|kv rest]; [contradiction |].
  unfold parse_props.
  replace (AttrOr_title s EmptyString) with (render_props (kv :: rest))
    by (unfold AttrOr_title; now rewrite Hs).
  rewrite (Split_rendered rest kv Hall).
  apply Forall_cons in Hall as [Hkv Hrest].
  simpl add_props.
  rewrite <- (app_nil_l (render_prop kv)).
  rewrite (add_prop_rendered ∅ kv false Hkv). simpl.
  unfold props_of. simpl fold_left. apply add_props_rendered, Hrest.
Qed.

Lemma X9_witness :
  [("bbox", "1 2 3 4"); ("x_wconf", "90")]%string <> []
  /\ Forall well_formed_prop [("bbox", "1 2 3 4"); ("x_wconf", "90")]%string
  /\ attr_title (word_elem "bbox 1 2 3 4; x_wconf 90" "a")
     = Some (render_props [("bbox", "1 2 3 4"); ("x_wconf", "90")]%string)
  /\ parse_props (word_elem "bbox 1 2 3 4; x_wconf 90" "a")
     = Done (props_of [("bbox", "1 2 3 4"); ("x_wconf", "90")]%string).
Proof.
  assert (H1 : [("bbox", "1 2 3 4"); ("x_wconf", "90")]%string
               <> ([] : list (string * string))) by discriminate.
  assert (H2 : Forall well_formed_prop [("bbox", "1 2 3 4"); ("x_wconf", "90")]%string).
  { constructor; [| constructor; [| constructor]];
      (split; [discriminate |]); repeat split; reflexivity. }
  assert (H3 : attr_title (word_elem "bbox 1 2 3 4; x_wconf 90" "a")
               = Some (render_props [("bbox", "1 2 3 4"); ("x_wconf", "90")]%string))
    by reflexivity.
  split; [exact H1 |]. split; [exact H2 |]. split; [exact H3 |].
  exact (X9_render_then_parse _ _ H1 H2 H3).
Defined.

(** ** Printing and reading back an int *)

Section DecimalFacts.

Lemma parse_digits_cons (c : ascii) (k : Z) (s : string) (acc : Z) :
  strconv.digit_val c = Some k ->
  strconv.parse_digits (String c s) acc = strconv.parse_digits s (acc * 10 + k).
Proof. intros H. simpl. now rewrite H. Qed.

Lemma parse_digits_acc (d : Decimal.uint) :
  forall acc : positive,
    strconv.parse_digits (NilEmpty.string_of_uint d) (Z.pos acc)
    = Some (Z.pos (Pos.of_uint_acc d acc)).
Proof.
  induction d as [|d IH|d IH|d IH|d IH|d IH|d IH|d IH|d IH|d IH|d IH]; intros acc;
    cbn [NilEmpty.string_of_uint Pos.of_uint_acc]; [reflexivity | ..];
    erewrite parse_digits_cons by (vm_compute; reflexivity);
    rewrite <- IH; f_equal; lia.
Qed.

Lemma parse_digits_uint (d : Decimal.uint) :
  strconv.parse_digits (NilEmpty.string_of_uint d) 0 = Some (Z.of_N (Pos.of_uint d)).
Proof.
  induction d as [|d IH|d IH|d IH|d IH|d IH|d IH|d IH|d IH|d IH|d IH];
    cbn [NilEmpty.string_of_uint Pos.of_uint]; [reflexivity | ..];
    erewrite parse_digits_cons by (vm_compute; reflexivity);
    [exact IH | ..];
    cbn [Z.of_N]; rewrite <- parse_digits_acc; f_equal.
Qed.

Lemma parse_digits_pos (p : positive) :
  strconv.parse_digits (NilEmpty.string_of_uint (Pos.to_uint p)) 0 = Some (Z.pos p).
Proof.
  rewrite parse_digits_uint, DecimalPos.Unsigned.of_to. reflexivity.
Qed.

(** The decimal form of a positive number: digits, none of them a sign. *)
Lemma string_of_pos_shape (p : positive) :
  NilZero.string_of_uint (Pos.to_uint p) = NilEmpty.string_of_uint (Pos.to_uint p)
  /\ exists c s, NilEmpty.string_of_uint (Pos.to_uint p) = String c s
                 /\ regexp.is_digit c = true.
Proof.
  pose proof (DecimalPos.Unsigned.to_uint_nonnil p) as Hn.
  destruct (Pos.to_uint p) as [|d|d|d|d|d|d|d|d|d|d]; [contradiction | ..];
    (split; [reflexivity | eexists; eexists; split; [reflexivity | vm_compute; reflexivity]]).
Qed.

Lemma is_digit_not_sign (c : ascii) :
  regexp.is_digit c = true -> Ascii.eqb c "-" = false /\ Ascii.eqb c "+" = false.
Proof.
  intros H. split.
  - destruct (Ascii.eqb c "-") eqn:E; [| reflexivity].
    apply Ascii.eqb_eq in E. subst c. vm_compute in H. discriminate H.
  - destruct (Ascii.eqb c "+") eqn:E; [| reflexivity].
    apply Ascii.eqb_eq in E. subst c. vm_compute in H. discriminate H.
Qed.

(** [Atoi] reads back what [Itoa] prints, for every int. *)
Lemma Atoi_Itoa (n : Z) :
  GoInt.in_range n -> strconv.Atoi (strconv.Itoa n) = (n, None).
Proof.
  unfold GoInt.in_range, GoInt.MinInt, GoInt.MaxInt. intros Hr.
  destruct n as [|p|p]; [reflexivity | |].
  - unfold strconv.Itoa. cbn [Z.to_int NilZero.string_of_int].
    destruct (string_of_pos_shape p) as (-> & c & s & Hs & Hc).
    pose proof (parse_digits_pos p) as Hp. rewrite Hs in *.
    destruct (is_digit_not_sign c Hc) as [Hm Hpl].
    unfold strconv.Atoi. rewrite Hm, Hpl. cbn [orb]. cbv iota. rewrite Hp.
    destruct (2 ^ 63 <=? Z.pos p) eqn:E; [apply Z.leb_le in E; lia | reflexivity].
  - unfold strconv.Itoa. cbn [Z.to_int NilZero.string_of_int].
    destruct (string_of_pos_shape p) as (-> & c & s & Hs & Hc).
    pose proof (parse_digits_pos p) as Hp. rewrite Hs in *.
    unfold strconv.Atoi. change (Ascii.eqb "-" "-") with true. cbn [orb]. cbv iota.
    rewrite Hp.
    destruct (2 ^ 63 <? Z.pos p) eqn:E; [apply Z.ltb_lt in E; lia | reflexivity].
Qed.

Lemma Itoa_inj (a b : Z) :
  GoInt.in_range a -> GoInt.in_range b -> strconv.Itoa a = strconv.Itoa b -> a = b.
Proof.
  intros Ha Hb H. pose proof (Atoi_Itoa a Ha) as Ea.
  rewrite H, (Atoi_Itoa b Hb) in Ea. now injection Ea.
Qed.

End DecimalFacts.

(** ** Invariants of the rotation loop *)

Section LoopInvariants.

Context {U : UnicodeTables}.

Lemma loop_cons_inv (w : World) (id tiffFile : string) (angle : Z) (rest : list Z)
      (st st' : Controller) :
  rotation_loop w id tiffFile (angle :: rest) st = Done st' ->
  exists p t c,
    evaluates w id tiffFile angle p t c
    /\ ((70 < c)%Q /\ st' = update st p t c
        \/ (c <= 70)%Q /\ rotation_loop w id tiffFile rest (update st p t c) = Done st').
Proof.
  intros H. simpl in H.
  destruct (prepare w id tiffFile angle) as [[p i]|f] eqn:Ep; simpl in H; [| discriminate].
  destruct (ocrImage w i p) as [[t c]|f] eqn:Eo; simpl in H; [| discriminate].
  exists p, t, c. split; [exists i; now split |].
  destruct (goodEnough_of c) eqn:Eg.
  - left. split; [now apply goodEnough_true | now injection H].
  - right. split; [now apply goodEnough_false | exact H].
Qed.

Lemma loop_Done_inv (w : World) (id tiffFile : string) (rotations : list Z) :
  forall st st',
    rotation_loop w id tiffFile rotations st = Done st' ->
    exists k,
      (k <= length rotations)%nat
      /\ evaluated st' = evaluated st ++ map (candidate_prefix id) (take k rotations)
      /\ (rotations <> [] -> (0 < k)%nat)
      /\ Forall (low w id tiffFile) (take (pred k) rotations)
      /\ ((title st' = title st /\ outputPrefix st' = outputPrefix st
           /\ (title st <> EmptyString \/ rotations = []))
          \/ exists j angle c,
              (j < k)%nat /\ rotations !! j = Some angle
              /\ evaluates w id tiffFile angle (outputPrefix st') (title st') c)
      /\ ((k < length rotations)%nat ->
          exists angle c,
            rotations !! pred k = Some angle
            /\ evaluates w id tiffFile angle (outputPrefix st') (title st') c
            /\ (70 < c)%Q).
Proof.
  induction rotations as [|angle rest IH]; intros st st' H.
  - simpl in H. injection H as <-. exists 0%nat. simpl. rewrite app_nil_r.
    split; [lia |]. split; [reflexivity |]. split; [intros Hne; contradiction |].
    split; [constructor |]. split; [| intros Hlt; lia].
    left. split; [reflexivity |]. split; [reflexivity | now right].
  - apply loop_cons_inv in H as (p & t & c & He & [[Hc ->] | [Hc Hrest]]).
    + destruct (update_good st p t c Hc) as [Ht Hp].
      exists 1%nat. simpl take. simpl length.
      split; [lia |]. split.
      { rewrite update_evaluated. simpl. now rewrite (evaluates_prefix _ _ _ _ _ _ _ He). }
      split; [lia |]. split; [constructor |]. split.
      * right. exists 0%nat, angle, c. split; [lia |]. split; [reflexivity |].
        now rewrite Ht, Hp.
      * intros _. exists angle, c. split; [reflexivity |]. now rewrite Ht, Hp.
    + destruct (IH _ _ Hrest) as (k & Hk & Hev & Hpos & Hlow & Hch & Hstop).
      exists (S k). simpl length. split; [lia |]. split.
      { rewrite Hev, update_evaluated, <- app_assoc. simpl.
        now rewrite (evaluates_prefix _ _ _ _ _ _ _ He). }
      split; [lia |]. split.
      { simpl pred. destruct k as [|k]; [constructor |].
        simpl take. constructor; [now exists p, t, c | exact Hlow]. }
      split.
      * destruct Hch as [(Ht & Hp & _) | (j & a & c' & Hj & Ha & He')].
        -- destruct (decide (title st = EmptyString)) as [He0 | Hne].
           ++ destruct (update_first st p t c He0) as [Ht1 Hp1].
              right. exists 0%nat, angle, c. split; [lia |]. split; [reflexivity |].
              now rewrite Ht, Hp, Ht1, Hp1.
           ++ destruct (update_keep st p t c Hc Hne) as [Ht1 Hp1].
              left. split; [congruence |]. split; [congruence | now left].
        -- right. exists (S j), a, c'. split; [lia |]. split; [exact Ha | exact He'].
      * intros Hlt. assert (Hk' : (k < length rest)%nat) by lia.
        destruct (Hstop Hk') as (a & c' & Ha & He' & Hc').
        exists a, c'. split; [| now split].
        destruct k as [|k]; [| exact Ha].
        exfalso. assert (rest <> []) by (destruct rest; [simpl in Hk'; lia | discriminate]).
        specialize (Hpos H). lia.
Qed.

Lemma loop_abort_step (w : World) (id tiffFile : string) (angle : Z) (rest : list Z)
      (st : Controller) (f : Fault) :
  fails w id tiffFile angle f ->
  rotation_loop w id tiffFile (angle :: rest) st = Abort f.
Proof.
  intros [Hp | (p & i & Hp & Ho)]; simpl; rewrite Hp; simpl; [reflexivity |].
  rewrite Ho. reflexivity.
Qed.

Lemma loop_Abort_inv (w : World) (id tiffFile : string) (rotations : list Z) (f : Fault) :
  forall st,
    rotation_loop w id tiffFile rotations st = Abort f ->
    exists pre angle post,
      rotations = pre ++ angle :: post
      /\ Forall (low w id tiffFile) pre
      /\ fails w id tiffFile angle f.
Proof.
  induction rotations as [|angle rest IH]; intros st H; [discriminate |].
  simpl in H.
  destruct (prepare w id tiffFile angle) as [[p i]|g] eqn:Ep; simpl in H.
  - destruct (ocrImage w i p) as [[t c]|g] eqn:Eo; simpl in H.
    + destruct (goodEnough_of c) eqn:Eg; [discriminate |].
      destruct (IH _ H) as (pre & a & post & -> & Hlow & Hf).
      exists (angle :: pre), a, post. split; [reflexivity |]. split; [| exact Hf].
      constructor; [| exact Hlow].
      exists p, t, c. split; [exists i; now split | now apply goodEnough_false].
    + injection H as ->. exists [], angle, rest. split; [reflexivity |].
      split; [constructor |]. right. now exists p, i.
  - injection H as ->. exists [], angle, rest. split; [reflexivity |].
    split; [constructor | now left].
Qed.

End LoopInvariants.

(** X10. After a completed run over a non-empty list of rotations, the
    title and the output prefix kept by the loop come from one and the
    same evaluated candidate: they are never left at their initial empty
    values and never mix the title of one angle with the files of
    another. *)
Theorem X10_best_is_one_evaluated_candidate `{U : UnicodeTables}
        (w : World) (id tiffFile : string) (rotations : list Z) (st : Controller) :
  run_rotations w id tiffFile rotations = Done st ->
  rotations <> [] ->
  exists angle c,
    angle ∈ rotations
    /\ evaluates w id tiffFile angle (outputPrefix st) (title st) c
    /\ outputPrefix st = candidate_prefix id angle
    /\ outputPrefix st ∈ evaluated st.
Proof.
  intros H Hne. unfold run_rotations in H.
  destruct (loop_Done_inv w id tiffFile rotations _ _ H)
    as (k & Hk & Hev & _ & _ & Hch & _).
  destruct Hch as [(_ & _ & [Ht | Hr]) | (j & angle & c & Hj & Ha & He)];
    [now contradiction Ht | contradiction |].
  exists angle, c. split; [eapply list_elem_of_lookup_2, Ha |].
  split; [exact He |]. pose proof (evaluates_prefix _ _ _ _ _ _ _ He) as Hp.
  split; [exact Hp |].
  rewrite Hev. simpl. rewrite Hp. apply list_elem_of_fmap_2.
  eapply list_elem_of_lookup_2. rewrite lookup_take_lt by exact Hj. exact Ha.
Qed.

Lemma X10_witness :
  @run_rotations latin1 world_first_kept "doc" "doc.tiff" rotations_default
  = Done {| title := "a "; outputPrefix := "ocr-doc";
            evaluated := ["ocr-doc"; "ocr-doc-r180"; "ocr-doc-r90"; "ocr-doc-r270"]%string |}
  /\ rotations_default <> []
  /\ exists angle c,
      angle ∈ rotations_default
      /\ @evaluates latin1 world_first_kept "doc" "doc.tiff" angle "ocr-doc" "a " c
      /\ "ocr-doc"%string = candidate_prefix "doc" angle
      /\ "ocr-doc"%string
         ∈ ["ocr-doc"; "ocr-doc-r180"; "ocr-doc-r90"; "ocr-doc-r270"]%string.
Proof.
  assert (H : @run_rotations latin1 world_first_kept "doc" "doc.tiff" rotations_default
              = Done {| title := "a "; outputPrefix := "ocr-doc";
                        evaluated := ["ocr-doc"; "ocr-doc-r180"; "ocr-doc-r90";
                                      "ocr-doc-r270"]%string |})
    by (vm_compute; reflexivity).
  assert (Hne : rotations_default <> []) by discriminate.
  split; [exact H |]. split; [exact Hne |].
  exact (@X10_best_is_one_evaluated_candidate latin1 world_first_kept "doc" "doc.tiff"
           rotations_default _ H Hne).
Defined.

(** X11. A completed run evaluates an initial segment of the list of
    rotations, at least one candidate when the list is not empty; every
    evaluated candidate but the last was not good enough; and when the
    run stops before the end of the list, the last evaluated candidate
    has confidence above 70 and is the result. *)
Theorem X11_evaluates_initial_segment `{U : UnicodeTables}
        (w : World) (id tiffFile : string) (rotations : list Z) (st : Controller) :
  run_rotations w id tiffFile rotations = Done st ->
  exists k,
    (k <= length rotations)%nat
    /\ (rotations <> [] -> (0 < k)%nat)
    /\ evaluated st = map (candidate_prefix id) (take k rotations)
    /\ Forall (low w id tiffFile) (take (pred k) rotations)
    /\ ((k < length rotations)%nat ->
        exists angle c,
          rotations !! pred k = Some angle
          /\ evaluates w id tiffFile angle (outputPrefix st) (title st) c
          /\ (70 < c)%Q).
Proof.
  intros H. unfold run_rotations in H.
  destruct (loop_Done_inv w id tiffFile rotations _ _ H)
    as (k & Hk & Hev & Hpos & Hlow & _ & Hstop).
  exists k. repeat split; assumption.
Qed.

Lemma X11_witness :
  @run_rotations latin1 world_halt "doc" "doc.tiff" rotations_default
  = Done {| title := "south "; outputPrefix := "ocr-doc-r180";
            evaluated := ["ocr-doc"; "ocr-doc-r180"]%string |}
  /\ exists k,
      (k <= length rotations_default)%nat
      /\ (rotations_default <> [] -> (0 < k)%nat)
      /\ ["ocr-doc"; "ocr-doc-r180"]%string
         = map (candidate_prefix "doc") (take k rotations_default)
      /\ Forall (@low latin1 world_halt "doc" "doc.tiff") (take (pred k) rotations_default)
      /\ ((k < length rotations_default)%nat ->
          exists angle c,
            rotations_default !! pred k = Some angle
            /\ @evaluates latin1 world_halt "doc" "doc.tiff" angle "ocr-doc-r180" "south " c
            /\ (70 < c)%Q).
Proof.
  assert (H : @run_rotations latin1 world_halt "doc" "doc.tiff" rotations_default
              = Done {| title := "south "; outputPrefix := "ocr-doc-r180";
                        evaluated := ["ocr-doc"; "ocr-doc-r180"]%string |})
    by (vm_compute; reflexivity).
  split; [exact H |].
  exact (@X11_evaluates_initial_segment latin1 world_halt "doc" "doc.tiff"
           rotations_default _ H).
Defined.

(** X12. The rotation loop aborts exactly when it reaches a candidate
    whose rotation or [ocrImage] ends the process, all earlier
    candidates having completed without being good enough; the fault is
    that of this candidate.  A low confidence alone never fails a run,
    and a failing tool is never skipped. *)
Theorem X12_abort_iff_reached_candidate_fails `{U : UnicodeTables}
        (w : World) (id tiffFile : string) (rotations : list Z) (st : Controller)
        (f : Fault) :
  rotation_loop w id tiffFile rotations st = Abort f
  <-> exists pre angle post,
      rotations = pre ++ angle :: post
      /\ Forall (low w id tiffFile) pre
      /\ fails w id tiffFile angle f.
Proof.
  split; [apply loop_Abort_inv |].
  intros (pre & angle & post & -> & Hlow & Hf).
  destruct (loop_low w id tiffFile pre Hlow st) as (st' & Hrun & _).
  rewrite Hrun. now apply loop_abort_step.
Qed.

(** The rotation to 90 degrees fails after two candidates of low
    confidence: the run aborts there. *)
Example run_convert_fails :
  @run_rotations latin1 world_convert_fails "doc" "doc.tiff" rotations_default
  = Abort ConvertFailed.
Proof. vm_compute. reflexivity. Qed.

(** X13. Distinct angles have distinct output prefixes and distinct OCR
    inputs, so the files of one candidate are never overwritten by
    another candidate of the same document. *)
Theorem X13_candidates_use_distinct_files
        (w : World) (id tiffFile : string) (a b : Z) (pa ia pb ib : string) :
  GoInt.in_range a -> GoInt.in_range b ->
  a <> b ->
  prepare w id tiffFile a = Done (pa, ia) ->
  prepare w id tiffFile b = Done (pb, ib) ->
  pa <> pb /\ ia <> ib.
Proof.
  intros Ha Hb Hab Hpa Hpb. unfold prepare in *.
  assert (Hlen : forall (x y : string), y <> EmptyString -> x <> x +:+ y).
  { intros x y Hy Hx. apply (f_equal GoString.len) in Hx. rewrite len_app in Hx.
    destruct y; [contradiction |]. unfold GoString.len in Hx. simpl in Hx. lia. }
  destruct (a =? 0) eqn:Ea, (b =? 0) eqn:Eb.
  - apply Z.eqb_eq in Ea, Eb. lia.
  - destruct (convert_run w tiffFile b _); [| discriminate].
    injection Hpa as <- <-. injection Hpb as <- <-. split.
    + intros H. apply String.app_inj in H. now apply Hlen in H.
    + now apply Hlen.
  - destruct (convert_run w tiffFile a _); [| discriminate].
    injection Hpa as <- <-. injection Hpb as <- <-. split.
    + intros H. apply String.app_inj in H. symmetry in H. now apply Hlen in H.
    + intros H. symmetry in H. now apply Hlen in H.
  - destruct (convert_run w tiffFile a _); [| discriminate].
    destruct (convert_run w tiffFile b _); [| discriminate].
    injection Hpa as <- <-. injection Hpb as <- <-.
    assert (Hi : strconv.Itoa a <> strconv.Itoa b)
      by (intros H; apply Hab; now apply Itoa_inj).
    split.
    + intros H. do 3 apply String.app_inj in H. contradiction.
    + intros H. do 2 apply String.app_inj in H.
      apply Hi. revert H. generalize (strconv.Itoa a) (strconv.Itoa b).
      intros x. induction x as [|c x IH]; intros y H.
      * destruct y; [reflexivity |]. apply (f_equal String.length) in H.
        rewrite app_cons in H. simpl in H.
        assert (Hl := len_app y ".tiff"). unfold GoString.len in Hl. simpl in Hl. lia.
      * destruct y as [|d y].
        { apply (f_equal String.length) in H. rewrite app_cons in H. simpl in H.
          assert (Hl := len_app x ".tiff"). unfold GoString.len in Hl. simpl in Hl. lia. }
        rewrite !app_cons in H. injection H as -> H. f_equal. now apply IH.
Qed.

Lemma X13_witness :
  GoInt.in_range 90 /\ GoInt.in_range 270 /\ 90 <> 270
  /\ prepare world_halt "doc" "doc.tiff" 90
     = Done ("ocr-doc-r90"%string, "doc.tiff-r90.tiff"%string)
  /\ prepare world_halt "doc" "doc.tiff" 270
     = Done ("ocr-doc-r270"%string, "doc.tiff-r270.tiff"%string)
  /\ "ocr-doc-r90"%string <> "ocr-doc-r270"%string
  /\ "doc.tiff-r90.tiff"%string <> "doc.tiff-r270.tiff"%string.
Proof.
  assert (H1 : GoInt.in_range 90)
    by (unfold GoInt.in_range, GoInt.MinInt, GoInt.MaxInt; lia).
  assert (H2 : GoInt.in_range 270)
    by (unfold GoInt.in_range, GoInt.MinInt, GoInt.MaxInt; lia).
  assert (H3 : 90 <> 270) by lia.
  assert (H4 : prepare world_halt "doc" "doc.tiff" 90
               = Done ("ocr-doc-r90"%string, "doc.tiff-r90.tiff"%string))
    by (vm_compute; reflexivity).
  assert (H5 : prepare world_halt "doc" "doc.tiff" 270
               = Done ("ocr-doc-r270"%string, "doc.tiff-r270.tiff"%string))
    by (vm_compute; reflexivity).
  split; [exact H1 |]. split; [exact H2 |]. split; [exact H3 |].
  split; [exact H4 |]. split; [exact H5 |].
  exact (X13_candidates_use_distinct_files world_halt "doc" "doc.tiff" 90 270
           _ _ _ _ H1 H2 H3 H4 H5).
Defined.

(** ** The rotation directive in the title of a file *)

Section DirectiveFacts.

Lemma Find_unfold (s : string) :
  regexp.FindStringSubmatch s
  = match regexp.match_here s with
    | Some ds => ["_rotate" +:+ ds; ds]
    | None =>
        match s with
        | EmptyString => []
        | String _ s' => regexp.FindStringSubmatch s'
        end
    end.
Proof. destruct s; reflexivity. Qed.

Lemma strip_prefix_spec (p s rest : string) :
  regexp.strip_prefix p s = Some rest <-> s = p +:+ rest.
Proof.
  revert s. induction p as [|a p IH]; intros s; simpl.
  - rewrite app_nil_l. split; [intros H; now injection H | now intros ->].
  - rewrite app_cons. destruct s as [|b s]; [split; discriminate |].
    destruct (Ascii.eqb a b) eqn:E.
    + apply Ascii.eqb_eq in E. subst b. rewrite IH.
      split; [now intros -> | intros H; now injection H].
    + split; [discriminate |]. intros H. injection H as <- _.
      rewrite Ascii.eqb_refl in E. discriminate E.
Qed.

Lemma digits_prefix_empty (s : string) :
  regexp.digits_prefix s = EmptyString <-> starts_with_digit s = false.
Proof.
  destruct s as [|c s]; simpl; [tauto |].
  destruct (regexp.is_digit c); split; (discriminate || reflexivity).
Qed.

Lemma match_here_None (s : string) :
  regexp.match_here s = None
  <-> forall post, s = "_rotate" +:+ post -> starts_with_digit post = false.
Proof.
  unfold regexp.match_here.
  destruct (regexp.strip_prefix "_rotate" s) as [rest|] eqn:E.
  - apply strip_prefix_spec in E. subst s. split.
    + intros H post Hp. apply String.app_inj in Hp. subst post.
      apply digits_prefix_empty. destruct (regexp.digits_prefix rest); [reflexivity | discriminate].
    + intros H. specialize (H rest eq_refl). apply digits_prefix_empty in H.
      now rewrite H.
  - split; [| reflexivity]. intros _ post Hp. apply strip_prefix_spec in Hp.
    rewrite Hp in E. discriminate E.
Qed.

Lemma Find_nil (s : string) :
  regexp.FindStringSubmatch s = []
  <-> forall pre post, s = pre +:+ "_rotate" +:+ post -> starts_with_digit post = false.
Proof.
  induction s as [|c s IH]; rewrite Find_unfold.
  - split; [| reflexivity]. intros _ pre post H.
    apply (f_equal GoString.len) in H. rewrite !len_app in H.
    pose proof (len_nonneg pre). pose proof (len_nonneg post).
    change (GoString.len EmptyString) with 0 in H.
    change (GoString.len "_rotate") with 7 in H. lia.
  - destruct (regexp.match_here (String c s)) as [ds|] eqn:E.
    + split; [discriminate |]. intros H. exfalso.
      assert (Hn : regexp.match_here (String c s) = None).
      { apply match_here_None. intros post Hp. apply (H EmptyString post).
        now rewrite app_nil_l. }
      rewrite Hn in E. discriminate E.
    + rewrite IH. split.
      * intros H [|a pre] post Hp.
        -- rewrite app_nil_l in Hp. exact (proj1 (match_here_None _) E post Hp).
        -- rewrite app_cons in Hp. injection Hp as _ Hp. exact (H pre post Hp).
      * intros H pre post Hp. apply (H (String c pre) post).
        rewrite app_cons. now rewrite Hp.
Qed.

Lemma prefix_of_app (p : string) :
  forall a x q,
    a +:+ x = p +:+ q -> (String.length p <= String.length a)%nat ->
    exists r, a = p +:+ r.
Proof.
  induction p as [|c p IH]; intros a x q H Hl.
  - exists a. now rewrite app_nil_l.
  - destruct a as [|c' a]; [simpl in Hl; lia |].
    rewrite !app_cons in H. injection H as -> H.
    destruct (IH a x q H) as [r ->]; [simpl in Hl; lia |].
    exists r. now rewrite app_cons.
Qed.

Lemma length_app_s (a b : string) :
  String.length (a +:+ b) = (String.length a + String.length b)%nat.
Proof.
  pose proof (len_app a b) as H. unfold GoString.len in H. lia.
Qed.

(** A match found in [pre ++ "_rotate" ++ s] before the directive would
    already be a match in [pre ++ "_rotate"]. *)
Lemma Find_skip (pre s : string) :
  regexp.FindStringSubmatch (pre +:+ "_rotate") = [] ->
  regexp.FindStringSubmatch (pre +:+ "_rotate" +:+ s)
  = regexp.FindStringSubmatch ("_rotate" +:+ s).
Proof.
  induction pre as [|c pre IH]; intros H; [now rewrite !app_nil_l |].
  rewrite app_cons in H. rewrite Find_unfold in H.
  destruct (regexp.match_here (String c (pre +:+ "_rotate"))) eqn:E; [discriminate |].
  rewrite app_cons, Find_unfold.
  assert (Hn : regexp.match_here (String c (pre +:+ "_rotate" +:+ s)) = None).
  { apply match_here_None. intros post Hp.
    destruct post as [|d post]; [reflexivity |].
    destruct (regexp.is_digit d) eqn:Ed; [| simpl; now rewrite Ed].
    exfalso.
    assert (Hq : String c (pre +:+ "_rotate") +:+ s
                 = ("_rotate" +:+ String d EmptyString) +:+ post).
    { rewrite app_cons, app_assoc_s, Hp. reflexivity. }
    apply prefix_of_app in Hq as [r Hr].
    - assert (Hr' : String c (pre +:+ "_rotate") = "_rotate" +:+ String d r)
        by (rewrite Hr; reflexivity).
      pose proof (proj1 (match_here_None _) E (String d r) Hr') as Hd.
      simpl in Hd. rewrite Ed in Hd. discriminate Hd.
    - simpl String.length. rewrite length_app_s. simpl. lia. }
  rewrite Hn. apply IH, H.
Qed.

Lemma digits_prefix_app (ds post : string) :
  regexp.digits_prefix ds = ds -> starts_with_digit post = false ->
  regexp.digits_prefix (ds +:+ post) = ds.
Proof.
  intros Hd Hp. induction ds as [|c ds IH].
  - rewrite app_nil_l. now apply digits_prefix_empty.
  - rewrite app_cons. simpl in *. destruct (regexp.is_digit c); [| discriminate].
    injection Hd as Hd. now rewrite IH.
Qed.

Lemma Find_directive (pre ds post : string) :
  regexp.FindStringSubmatch (pre +:+ "_rotate") = [] ->
  ds <> EmptyString -> regexp.digits_prefix ds = ds ->
  starts_with_digit post = false ->
  regexp.FindStringSubmatch (pre +:+ "_rotate" +:+ ds +:+ post) = ["_rotate" +:+ ds; ds].
Proof.
  intros Hpre Hne Hd Hp. rewrite (Find_skip pre _ Hpre), Find_unfold.
  unfold regexp.match_here.
  rewrite (proj2 (strip_prefix_spec "_rotate" _ (ds +:+ post)) eq_refl).
  rewrite (digits_prefix_app ds post Hd Hp).
  destruct ds; [contradiction | reflexivity].
Qed.

Lemma digits_prefix_idem (s : string) :
  regexp.digits_prefix (regexp.digits_prefix s) = regexp.digits_prefix s.
Proof.
  induction s as [|c s IH]; [reflexivity |].
  simpl. destruct (regexp.is_digit c) eqn:E; [| reflexivity].
  simpl. now rewrite E, IH.
Qed.

Lemma parse_all_digits (s : string) :
  regexp.digits_prefix s = s ->
  forall acc, 0 <= acc -> exists n, strconv.parse_digits s acc = Some n /\ 0 <= n.
Proof.
  induction s as [|c s IH]; intros Hd acc Hacc; [now exists acc |].
  simpl in *. unfold regexp.is_digit in Hd.
  destruct (strconv.digit_val c) as [k|] eqn:Ek; [| discriminate].
  injection Hd as Hd. apply (IH Hd).
  unfold strconv.digit_val in Ek.
  destruct ((48 <=? GoString.byte_code c) && (GoString.byte_code c <=? 57)) eqn:Eb;
    [| discriminate].
  injection Ek as <-. lia.
Qed.

(** Reading a non-empty run of digits: never negative, never above the
    largest int. *)
Lemma Atoi_digits_range (ds : string) :
  ds <> EmptyString -> regexp.digits_prefix ds = ds ->
  0 <= fst (strconv.Atoi ds) <= GoInt.MaxInt.
Proof.
  intros Hne Hd. destruct ds as [|c s]; [contradiction |].
  assert (Hc : regexp.is_digit c = true).
  { simpl in Hd. destruct (regexp.is_digit c); [reflexivity | discriminate]. }
  destruct (is_digit_not_sign c Hc) as [Hm Hp].
  destruct (parse_all_digits _ Hd 0 (Z.le_refl 0)) as (n & Hn & Hn0).
  unfold strconv.Atoi. rewrite Hm, Hp. cbn [orb]. cbv iota. rewrite Hn.
  unfold GoInt.MaxInt.
  destruct (2 ^ 63 <=? n) eqn:E; simpl; [lia |]. apply Z.leb_gt in E. lia.
Qed.

Lemma Find_shape (s : string) :
  regexp.FindStringSubmatch s = []
  \/ exists ds, regexp.FindStringSubmatch s = ["_rotate" +:+ ds; ds]
                /\ ds <> EmptyString /\ regexp.digits_prefix ds = ds.
Proof.
  induction s as [|c s IH]; rewrite Find_unfold.
  - now left.
  - unfold regexp.match_here.
    destruct (regexp.strip_prefix "_rotate" (String c s)) as [rest|]; [| exact IH].
    destruct (regexp.digits_prefix rest) as [|d ds] eqn:E; [exact IH |].
    right. exists (String d ds). split; [reflexivity |]. split; [discriminate |].
    rewrite <- E. apply digits_prefix_idem.
Qed.

Lemma Itoa_digits (n : Z) :
  0 <= n ->
  strconv.Itoa n <> EmptyString /\ regexp.digits_prefix (strconv.Itoa n) = strconv.Itoa n.
Proof.
  assert (Hu : forall d, regexp.digits_prefix (NilEmpty.string_of_uint d)
                         = NilEmpty.string_of_uint d).
  { induction d; [reflexivity | ..];
      (cbn [NilEmpty.string_of_uint];
       unfold regexp.digits_prefix; fold regexp.digits_prefix;
       match goal with
       | |- context [regexp.is_digit ?c] =>
           replace (regexp.is_digit c) with true by (vm_compute; reflexivity)
       end; now rewrite IHd). }
  intros Hn. destruct n as [|p|p]; [split; [discriminate | reflexivity] | | lia].
  unfold strconv.Itoa. cbn [Z.to_int NilZero.string_of_int].
  destruct (string_of_pos_shape p) as (-> & c & s & Hs & _).
  split; [rewrite Hs; discriminate | apply Hu].
Qed.

End DirectiveFacts.

(** X14. The list of rotations of a file is never empty: it is the
    default list of four angles or a single requested angle, and a
    requested angle is never negative and never above the largest int
    (an overlong run of digits saturates there). *)
Theorem X14_rotations_default_or_single (title0 : string) :
  rotations_of_title title0 = [0; 180; 90; 270]
  \/ exists a, 0 <= a <= GoInt.MaxInt /\ rotations_of_title title0 = [a].
Proof.
  unfold rotations_of_title.
  destruct (Find_shape title0) as [-> | (ds & -> & Hne & Hd)]; [now left |].
  right. exists (fst (strconv.Atoi ds)). split; [now apply Atoi_digits_range | reflexivity].
Qed.

(** X15. The default list of rotations is used exactly when the title
    has no occurrence of [_rotate] directly followed by a digit. *)
Theorem X15_default_iff_no_directive (title0 : string) :
  rotations_of_title title0 = [0; 180; 90; 270]
  <-> forall pre post,
      title0 = pre +:+ "_rotate" +:+ post -> starts_with_digit post = false.
Proof.
  rewrite <- Find_nil. unfold rotations_of_title.
  destruct (Find_shape title0) as [-> | (ds & -> & _ & _)].
  - split; reflexivity.
  - split; discriminate.
Qed.

(** X16. A title whose first directive is [_rotate] followed by the
    digits [ds] (and then by something that is not a digit) yields the
    single rotation read from [ds]; when [ds] is the decimal form of an
    angle [n], that rotation is [n]. *)
Theorem X16_directive_selects_angle (pre ds post : string) :
  regexp.FindStringSubmatch (pre +:+ "_rotate") = [] ->
  ds <> EmptyString -> regexp.digits_prefix ds = ds ->
  starts_with_digit post = false ->
  rotations_of_title (pre +:+ "_rotate" +:+ ds +:+ post) = [fst (strconv.Atoi ds)]
  /\ forall n, 0 <= n <= GoInt.MaxInt -> ds = strconv.Itoa n ->
               rotations_of_title (pre +:+ "_rotate" +:+ ds +:+ post) = [n].
Proof.
  intros Hpre Hne Hd Hp.
  assert (H : rotations_of_title (pre +:+ "_rotate" +:+ ds +:+ post)
              = [fst (strconv.Atoi ds)]).
  { unfold rotations_of_title. rewrite (Find_directive pre ds post Hpre Hne Hd Hp).
    reflexivity. }
  split; [exact H |]. intros n Hn ->. rewrite H, Atoi_Itoa; [reflexivity |].
  unfold GoInt.in_range, GoInt.MinInt, GoInt.MaxInt in *. lia.
Qed.

Lemma X16_witness :
  regexp.FindStringSubmatch ("scan_2016" +:+ "_rotate") = []
  /\ "90"%string <> EmptyString
  /\ regexp.digits_prefix "90" = "90"%string
  /\ starts_with_digit ".pdf" = false
  /\ rotations_of_title ("scan_2016" +:+ "_rotate" +:+ "90" +:+ ".pdf")
     = [fst (strconv.Atoi "90")]
  /\ forall n, 0 <= n <= GoInt.MaxInt -> "90"%string = strconv.Itoa n ->
               rotations_of_title ("scan_2016" +:+ "_rotate" +:+ "90" +:+ ".pdf") = [n].
Proof.
  assert (H1 : regexp.FindStringSubmatch ("scan_2016" +:+ "_rotate") = [])
    by (vm_compute; reflexivity).
  assert (H2 : "90"%string <> EmptyString) by discriminate.
  assert (H3 : regexp.digits_prefix "90" = "90"%string) by (vm_compute; reflexivity).
  assert (H4 : starts_with_digit ".pdf" = false) by (vm_compute; reflexivity).
  split; [exact H1 |]. split; [exact H2 |]. split; [exact H3 |]. split; [exact H4 |].
  exact (X16_directive_selects_angle "scan_2016" "90" ".pdf" H1 H2 H3 H4).
Defined.

(** Titles evaluated: a directive, a directive with leading zeros, a
    directive of 25 digits, and [_rotate] without digits. *)
Example rotations_evaluated :
  rotations_of_title "scan_2016_rotate90.pdf" = [90]
  /\ rotations_of_title "scan_rotate0090.pdf" = [90]
  /\ rotations_of_title "scan_rotate1234567890123456789012345.pdf" = [GoInt.MaxInt]
  /\ rotations_of_title "scan_rotate_left.pdf" = [0; 180; 90; 270]
  /\ rotations_of_title "a_rotate_rotate270_rotate90" = [270].
Proof. repeat split; vm_compute; reflexivity. Qed.

(** X17. With a directive in the title the run has a single candidate:
    whenever that candidate completes it is the result, whatever its
    confidence, and no other angle is evaluated. *)
Theorem X17_requested_angle_is_the_result `{U : UnicodeTables}
        (w : World) (id tiffFile title0 : string) (n : Z) (p t : string) (c : Q) :
  rotations_of_title title0 = [n] ->
  evaluates w id tiffFile n p t c ->
  run_for_title w id tiffFile title0
  = Done {| title := t; outputPrefix := p; evaluated := [p] |}.
Proof.
  intros Hr He. unfold run_for_title, run_rotations. rewrite Hr.
  rewrite (loop_step _ _ _ _ _ _ _ _ _ He). simpl rotation_loop.
  assert (Hu : update controller_init p t c
               = {| title := t; outputPrefix := p; evaluated := [p] |}).
  { unfold update, controller_init. simpl. now rewrite orb_true_r. }
  rewrite Hu. destruct (goodEnough_of c); reflexivity.
Qed.

Lemma X17_witness :
  rotations_of_title "scan_rotate270.pdf" = [270]
  /\ @evaluates latin1 world_halt "doc" "doc.tiff" 270 "ocr-doc-r270" EmptyString (120 # 4)
  /\ @run_for_title latin1 world_halt "doc" "doc.tiff" "scan_rotate270.pdf"
     = Done {| title := EmptyString; outputPrefix := "ocr-doc-r270";
               evaluated := ["ocr-doc-r270"%string] |}.
Proof.
  assert (H1 : rotations_of_title "scan_rotate270.pdf" = [270]) by (vm_compute; reflexivity).
  assert (H2 : @evaluates latin1 world_halt "doc" "doc.tiff" 270
                          "ocr-doc-r270" EmptyString (120 # 4)) by run_candidate.
  split; [exact H1 |]. split; [exact H2 |].
  exact (@X17_requested_angle_is_the_result latin1 world_halt "doc" "doc.tiff"
           "scan_rotate270.pdf" 270 "ocr-doc-r270" EmptyString (120 # 4) H1 H2).
Defined.

(** ** Sorting by an integer key, and main.go *)

Section KeySort.

Context {A : Type} (key : A -> Z).

Lemma insert_key_perm (x : A) (l : list A) :
  Permutation (sort.insert (sort.Reverse (by_key key)) x l) (x :: l).
Proof.
  induction l as [|y l IH]; simpl; [reflexivity |].
  destruct (key x <? key y); [| reflexivity].
  rewrite IH. apply perm_swap.
Qed.

Lemma Stable_key_perm (l : list A) :
  Permutation (sort.Stable (sort.Reverse (by_key key)) l) l.
Proof.
  induction l as [|x l IH]; simpl; [reflexivity |].
  rewrite insert_key_perm. now constructor.
Qed.

Lemma insert_key_sorted (x : A) (l : list A) :
  StronglySorted (key_ge key) l ->
  StronglySorted (key_ge key) (sort.insert (sort.Reverse (by_key key)) x l).
Proof.
  induction 1 as [|y l Hs IH Hy]; simpl.
  - repeat constructor.
  - destruct (key x <? key y) eqn:E.
    + apply Z.ltb_lt in E. constructor; [exact IH |].
      eapply Permutation_Forall; [symmetry; apply insert_key_perm |].
      constructor; [unfold key_ge; lia | exact Hy].
    + apply Z.ltb_ge in E. constructor; [constructor; assumption |].
      constructor; [exact E |].
      eapply Forall_impl; [exact Hy |].
      unfold key_ge. intros z Hz. lia.
Qed.

Lemma Stable_key_sorted (l : list A) :
  StronglySorted (key_ge key) (sort.Stable (sort.Reverse (by_key key)) l).
Proof.
  induction l as [|x l IH]; simpl; [constructor | now apply insert_key_sorted].
Qed.

Lemma insert_key_head (x : A) (m : list A) :
  Forall (fun z => key z <= key x) m ->
  sort.insert (sort.Reverse (by_key key)) x m = x :: m.
Proof.
  intros H. destruct m as [|z m]; [reflexivity |].
  apply Forall_cons in H as [Hz _]. simpl.
  destruct (key x <? key z) eqn:E; [apply Z.ltb_lt in E; lia | reflexivity].
Qed.

Lemma Forall_filter_bool (P : A -> Prop) (p : A -> bool) (l : list A) :
  Forall P l -> Forall P (List.filter p l).
Proof.
  induction 1 as [|x l Hx _ IH]; simpl; [constructor |].
  destruct (p x); [now constructor | exact IH].
Qed.

Lemma insert_key_filter (p : A -> bool) (x : A) (l : list A) :
  StronglySorted (key_ge key) l ->
  List.filter p (sort.insert (sort.Reverse (by_key key)) x l)
  = if p x then sort.insert (sort.Reverse (by_key key)) x (List.filter p l)
    else List.filter p l.
Proof.
  induction 1 as [|y l Hs IH Hy].
  - simpl. destruct (p x); reflexivity.
  - simpl sort.insert. destruct (key x <? key y) eqn:E.
    + change (List.filter p (y :: sort.insert (sort.Reverse (by_key key)) x l))
        with (if p y then y :: List.filter p (sort.insert (sort.Reverse (by_key key)) x l)
              else List.filter p (sort.insert (sort.Reverse (by_key key)) x l)).
      rewrite IH. simpl List.filter.
      destruct (p x), (p y); try reflexivity. simpl. now rewrite E.
    + apply Z.ltb_ge in E.
      change (List.filter p (x :: y :: l))
        with (if p x then x :: List.filter p (y :: l) else List.filter p (y :: l)).
      destruct (p x); [| reflexivity].
      symmetry. apply insert_key_head, Forall_filter_bool.
      constructor; [exact E |].
      eapply Forall_impl; [exact Hy |]. unfold key_ge. intros z Hz. lia.
Qed.

(** Filtering commutes with the stable sort. *)
Lemma Stable_key_filter (p : A -> bool) (l : list A) :
  List.filter p (sort.Stable (sort.Reverse (by_key key)) l)
  = sort.Stable (sort.Reverse (by_key key)) (List.filter p l).
Proof.
  induction l as [|x l IH]; [reflexivity |].
  simpl sort.Stable. rewrite insert_key_filter by apply Stable_key_sorted.
  rewrite IH. simpl List.filter. destruct (p x); reflexivity.
Qed.

Lemma Stable_key_stable (z : Z) (l : list A) :
  List.filter (fun a => key a =? z) (sort.Stable (sort.Reverse (by_key key)) l)
  = List.filter (fun a => key a =? z) l.
Proof.
  rewrite Stable_key_filter.
  assert (Hs : forall m, Forall (fun a => key a = z) m ->
                         sort.Stable (sort.Reverse (by_key key)) m = m).
  { induction 1 as [|a m Ha Hm IH]; [reflexivity |].
    simpl. rewrite IH. apply insert_key_head.
    eapply Forall_impl; [exact Hm |]. intros b Hb. simpl in Hb. lia. }
  apply Hs. induction l as [|a l IH]; simpl; [constructor |].
  destruct (key a =? z) eqn:E; [| exact IH].
  constructor; [now apply Z.eqb_eq | exact IH].
Qed.

End KeySort.

(** X18. main.go prints the words with confidence above 75 and a text
    of at least 3 bytes in descending order of point size, words of equal
    size in the order in which the iterator delivered them; the words
    that are not printed have no influence on that order (sorting and
    then filtering gives what filtering and then sorting gives). *)
Theorem X18_printed_words_sorted_and_stable (words : list TessMain.TessWord) :
  TessMain.main_output words
  = sort.Stable (sort.Reverse TessMain.ByFontSize) (List.filter TessMain.printed words)
  /\ StronglySorted (key_ge TessMain.pointsize) (TessMain.main_output words)
  /\ Permutation (TessMain.main_output words) (List.filter TessMain.printed words)
  /\ forall z,
      List.filter (fun a => TessMain.pointsize a =? z) (TessMain.main_output words)
      = List.filter (fun a => TessMain.pointsize a =? z)
                    (List.filter TessMain.printed words).
Proof.
  assert (H : TessMain.main_output words
              = sort.Stable (sort.Reverse TessMain.ByFontSize)
                            (List.filter TessMain.printed words))
    by apply (Stable_key_filter TessMain.pointsize).
  split; [exact H |]. rewrite H. split; [| split].
  - apply (Stable_key_sorted TessMain.pointsize).
  - apply (Stable_key_perm TessMain.pointsize).
  - intros z. apply (Stable_key_stable TessMain.pointsize).
Qed.

(** Three words of size 10, 14 and 14 and one short word: the two of
    size 14 come first, in their original order; the short word and the
    word of confidence 60 are not printed. *)
Example main_output_evaluated :
  map TessMain.text
      (TessMain.main_output
         [tess_word "small" (90 # 1) 10; tess_word "first" (80 # 1) 14;
          tess_word "ab" (99 # 1) 20; tess_word "doubt" (60 # 1) 30;
          tess_word "second" (76 # 1) 14])
  = ["first"; "second"; "small"]%string.
Proof. vm_compute. reflexivity. Qed.

(** ** ByWeight.Swap *)

Section SwapFacts.

Lemma slice_at_Done {A} (s : list A) (i : Z) (a : A) :
  slice_at s i = Done a
  <-> 0 <= i < Z.of_nat (length s) /\ s !! Z.to_nat i = Some a.
Proof.
  unfold slice_at, index.
  destruct ((0 <=? i) && (i <? Z.of_nat (length s))) eqn:E.
  - apply andb_true_iff in E as [E1 E2]. apply Z.leb_le in E1. apply Z.ltb_lt in E2.
    destruct (s !! Z.to_nat i) as [b|] eqn:El.
    + split; [intros H; injection H as ->; split; [lia | reflexivity] |].
      intros [_ H]. now injection H as ->.
    + split; [discriminate | intros [_ H]; discriminate H].
  - split; [discriminate |]. intros [H _].
    apply andb_false_iff in E as [E | E];
      [apply Z.leb_gt in E | apply Z.ltb_ge in E]; lia.
Qed.

Lemma slice_at_in_range {A} (s : list A) (i : Z) :
  0 <= i < Z.of_nat (length s) -> exists a, slice_at s i = Done a.
Proof.
  intros H. destruct (lookup_lt_is_Some_2 s (Z.to_nat i)) as [a Ha]; [lia |].
  exists a. apply slice_at_Done. now split.
Qed.

Lemma Swap_Done (s s' : list Word) (i j : Z) :
  ByWeight_Swap s i j = Done s' ->
  exists si sj,
    0 <= i < Z.of_nat (length s) /\ 0 <= j < Z.of_nat (length s)
    /\ s !! Z.to_nat i = Some si /\ s !! Z.to_nat j = Some sj
    /\ s' = <[Z.to_nat j := si]> (<[Z.to_nat i := sj]> s).
Proof.
  unfold ByWeight_Swap.
  destruct (slice_at s j) as [sj|f] eqn:Ej; simpl; [| discriminate].
  destruct (slice_at s i) as [si|f] eqn:Ei; simpl; [| discriminate].
  intros H. injection H as <-.
  apply slice_at_Done in Ej as [Hj Hlj]. apply slice_at_Done in Ei as [Hi Hli].
  exists si, sj. repeat split; assumption || lia.
Qed.

End SwapFacts.

(** X19. [ByWeight.Swap] succeeds exactly when both indices are within
    the slice, and panics otherwise.  When it succeeds the slice keeps
    its length and its elements (the result is a permutation), the two
    positions have exchanged their words, and swapping the same
    positions again restores the slice. *)
Theorem X19_Swap_exchanges_and_undoes (s : list Word) (i j : Z) :
  ((0 <= i < ByWeight_Len s /\ 0 <= j < ByWeight_Len s)
   <-> exists s', ByWeight_Swap s i j = Done s')
  /\ ((exists s', ByWeight_Swap s i j = Done s')
      \/ ByWeight_Swap s i j = Abort IndexOutOfRange)
  /\ forall s',
      ByWeight_Swap s i j = Done s' ->
      ByWeight_Len s' = ByWeight_Len s
      /\ Permutation s' s
      /\ slice_at s' i = slice_at s j
      /\ slice_at s' j = slice_at s i
      /\ ByWeight_Swap s' i j = Done s.
Proof.
  unfold ByWeight_Len.
  assert (Hiff : (0 <= i < Z.of_nat (length s) /\ 0 <= j < Z.of_nat (length s))
                 <-> exists s', ByWeight_Swap s i j = Done s').
  { split.
    - intros [Hi Hj]. unfold ByWeight_Swap.
      destruct (slice_at_in_range s j Hj) as [sj ->].
      destruct (slice_at_in_range s i Hi) as [si ->]. simpl. eauto.
    - intros [s' H]. apply Swap_Done in H as (si & sj & Hi & Hj & _). now split. }
  split; [exact Hiff |]. split.
  - unfold ByWeight_Swap.
    destruct (slice_at s j) as [sj|f] eqn:Ej; simpl.
    + destruct (slice_at s i) as [si|g] eqn:Ei; simpl; [left; eauto | right].
      unfold slice_at, index in Ei.
      destruct ((0 <=? i) && (i <? Z.of_nat (length s)));
        [destruct (s !! Z.to_nat i); [discriminate |] |]; now injection Ei as <-.
    + right. unfold slice_at, index in Ej.
      destruct ((0 <=? j) && (j <? Z.of_nat (length s)));
        [destruct (s !! Z.to_nat j); [discriminate |] |]; now injection Ej as <-.
  - intros s' H. apply Swap_Done in H as (si & sj & Hi & Hj & Hli & Hlj & ->).
    assert (Hlen : length (<[Z.to_nat j := si]> (<[Z.to_nat i := sj]> s)) = length s)
      by now rewrite !length_insert.
    assert (Hnj : (Z.to_nat j < length s)%nat) by lia.
    assert (Hni : (Z.to_nat i < length s)%nat) by lia.
    assert (Hj' : (<[Z.to_nat j := si]> (<[Z.to_nat i := sj]> s)) !! Z.to_nat j = Some si)
      by (apply list_lookup_insert_eq; now rewrite length_insert).
    assert (Hi' : (<[Z.to_nat j := si]> (<[Z.to_nat i := sj]> s)) !! Z.to_nat i = Some sj).
    { destruct (decide (Z.to_nat j = Z.to_nat i)) as [E | E].
      - rewrite E in *. rewrite Hj'. congruence.
      - rewrite list_lookup_insert_ne by exact E. now apply list_lookup_insert_eq. }
    split; [now rewrite Hlen |].
    split; [now apply Permutation_insert_swap |].
    split; [rewrite (proj2 (slice_at_Done _ i sj)), (proj2 (slice_at_Done s j sj));
            [reflexivity | now split | split; [lia | exact Hi']] |].
    split; [rewrite (proj2 (slice_at_Done _ j si)), (proj2 (slice_at_Done s i si));
            [reflexivity | now split | split; [lia | exact Hj']] |].
    unfold ByWeight_Swap.
    rewrite (proj2 (slice_at_Done _ j si)) by (split; [lia | exact Hj']).
    rewrite (proj2 (slice_at_Done _ i sj)) by (split; [lia | exact Hi']).
    simpl. f_equal.
    destruct (decide (Z.to_nat j = Z.to_nat i)) as [E | E].
    + rewrite E in *. rewrite !list_insert_insert_eq.
      assert (sj = si) by congruence. subst sj. now apply list_insert_id.
    + rewrite (list_insert_insert_ne _ (Z.to_nat i) (Z.to_nat j)) by congruence.
      rewrite !list_insert_insert_eq.
      rewrite (list_insert_id s (Z.to_nat i) si Hli).
      now apply list_insert_id.
Qed.

Lemma X19_witness :
  ByWeight_Swap [word_of "a" 10; word_of "b" 20; word_of "c" 30] 0 2
  = Done [word_of "c" 30; word_of "b" 20; word_of "a" 10]
  /\ ByWeight_Len [word_of "c" 30; word_of "b" 20; word_of "a" 10]
     = ByWeight_Len [word_of "a" 10; word_of "b" 20; word_of "c" 30]
  /\ Permutation [word_of "c" 30; word_of "b" 20; word_of "a" 10]
                 [word_of "a" 10; word_of "b" 20; word_of "c" 30]
  /\ slice_at [word_of "c" 30; word_of "b" 20; word_of "a" 10] 0
     = slice_at [word_of "a" 10; word_of "b" 20; word_of "c" 30] 2
  /\ slice_at [word_of "c" 30; word_of "b" 20; word_of "a" 10] 2
     = slice_at [word_of "a" 10; word_of "b" 20; word_of "c" 30] 0
  /\ ByWeight_Swap [word_of "c" 30; word_of "b" 20; word_of "a" 10] 0 2
     = Done [word_of "a" 10; word_of "b" 20; word_of "c" 30].
Proof.
  assert (H : ByWeight_Swap [word_of "a" 10; word_of "b" 20; word_of "c" 30] 0 2
              = Done [word_of "c" 30; word_of "b" 20; word_of "a" 10]) by reflexivity.
  split; [exact H |].
  exact (proj2 (proj2 (X19_Swap_exchanges_and_undoes
                         [word_of "a" 10; word_of "b" 20; word_of "c" 30] 0 2)) _ H).
Defined.

(** An index equal to the length, or a negative one, panics. *)
Example Swap_out_of_range :
  ByWeight_Swap [word_of "a" 10; word_of "b" 20] 0 2 = Abort IndexOutOfRange
  /\ ByWeight_Swap [word_of "a" 10; word_of "b" 20] (-1) 1 = Abort IndexOutOfRange.
Proof. split; reflexivity. Qed.

(** ** Short titles and the range of the confidence *)

Section ConfidenceRange.

Context {U : UnicodeTables}.



Lemma walk_all_when_short (words : list Word) :
  GoString.len (join words) <= 80 ->
  title_loop words EmptyString [] = (join words, samples words).
Proof.
  intros Hlen. destruct (walk_from_empty words) as (k & Hk & Ht & Hc & _ & Hend).
  assert (Hall : k = length words).
  { destruct Hend as [Hend | Hend]; [exact Hend | exfalso].
    rewrite <- (take_drop k words), join_app, len_app in Hlen.
    pose proof (len_nonneg (join (drop k words))). lia. }
  subst k. rewrite firstn_all in Ht, Hc.
  destruct (title_loop words EmptyString []) as [t cs]. simpl in *. congruence.
Qed.

End ConfidenceRange.

(** X20. When the texts of all qualifying words, each with its space,
    fit into 80 bytes, the walk visits every word: the title lists all
    qualifying words in the order of the sorted sequence and every word
    contributes its samples, so the weights only decide the order of the
    title. *)
Theorem X20_short_title_visits_every_word `{U : UnicodeTables} (words : list Word) :
  GoString.len (join words) <= 80 ->
  title_loop words EmptyString [] = (join words, samples words).
Proof. exact (walk_all_when_short words). Qed.

Lemma X20_witness :
  GoString.len (@join latin1 [word_of "Invoice" 95; word_of "x" 20; word_of "2016" 80]) <= 80
  /\ @title_loop latin1 [word_of "Invoice" 95; word_of "x" 20; word_of "2016" 80]
       EmptyString []
     = (@join latin1 [word_of "Invoice" 95; word_of "x" 20; word_of "2016" 80],
        @samples latin1 [word_of "Invoice" 95; word_of "x" 20; word_of "2016" 80]).
Proof.
  assert (H : GoString.len (@join latin1 [word_of "Invoice" 95; word_of "x" 20;
                                          word_of "2016" 80]) <= 80)
    by (vm_compute; discriminate).
  split; [exact H |].
  exact (@X20_short_title_visits_every_word latin1 _ H).
Defined.


